(** * MyToDo: the task list of [src/App.tsx]

    A shallow embedding of the React Native component [App]: its four
    [useState] cells, the [AsyncStorage] entry under the key ['tasks'], the
    handlers [loadTasks], [saveTasks], [addTask], [toggleCompletion],
    [editTask], [updateTask] and [deleteTask], and the two platform functions
    the persistence path goes through, [JSON.stringify] and [JSON.parse].

    Modelling conventions.
    - A JavaScript string is its sequence of UTF-16 code units ([list N]).
    - [Date.now()] is an input of [addTask]: the clock reading at the call.
    - A handler runs to completion on the state of the render it was created
      in and returns the next state; React re-renders between two user
      events, so consecutive handlers see each other's updates.
    - [AsyncStorage] is an ideal store: [setItem] takes effect in call order
      and never fails (the source awaits nothing and handles no failure).
    - The completion callback of the fade-out animation of [deleteTask] runs
      later than the press that scheduled it.  It is kept as a pending
      closure together with the [tasks] array it captured, and a run decides
      when it fires. *)

From Stdlib Require Import String Ascii ZArith NArith Decimal DecimalZ.
From stdpp Require Import gmap list fin_maps.

(** ** JavaScript strings *)

Abbreviation char16 := N (only parsing).
Abbreviation jsstring := (list N) (only parsing).

(** The code units of an ASCII literal of the source text. *)
Definition lit (s : string) : jsstring :=
  List.map N_of_ascii (list_ascii_of_string s).

(** [ToBoolean] on a string: the empty string is the only falsy one. *)
Definition truthy (s : jsstring) : bool :=
  match s with [] => false | _ :: _ => true end.

(** [ToBoolean] on [string | null]. *)
Definition truthy_opt (o : option jsstring) : bool :=
  match o with None => false | Some s => truthy s end.

(** *** [String.prototype.trim]

    Strips the code points of WhiteSpace and LineTerminator (ECMA-262
    12.2 and 12.3) from both ends: TAB, LF, VT, FF, CR, SP, NBSP, the
    space separators of the Basic Multilingual Plane, LS, PS and ZWNBSP. *)
Definition is_trim_space (c : char16) : bool :=
  ((9 <=? c) && (c <=? 13) || (c =? 32) || (c =? 160) || (c =? 5760)
   || (8192 <=? c) && (c <=? 8202) || (c =? 8232) || (c =? 8233)
   || (c =? 8239) || (c =? 8287) || (c =? 12288) || (c =? 65279))%N.

Fixpoint trimStart (s : jsstring) : jsstring :=
  match s with
  | c :: r => if is_trim_space c then trimStart r else s
  | [] => []
  end.

Definition trimEnd (s : jsstring) : jsstring := rev (trimStart (rev s)).

Definition trim (s : jsstring) : jsstring := trimEnd (trimStart s).

(** *** [Date.now().toString()]

    [Date.now()] is an integral Number of milliseconds, far below 1e21 in
    absolute value, so [toString] prints its decimal digits, with a leading
    minus sign below zero. *)
Fixpoint uint_digits (d : Decimal.uint) : jsstring :=
  match d with
  | Nil => []
  | D0 r => 48%N :: uint_digits r
  | D1 r => 49%N :: uint_digits r
  | D2 r => 50%N :: uint_digits r
  | D3 r => 51%N :: uint_digits r
  | D4 r => 52%N :: uint_digits r
  | D5 r => 53%N :: uint_digits r
  | D6 r => 54%N :: uint_digits r
  | D7 r => 55%N :: uint_digits r
  | D8 r => 56%N :: uint_digits r
  | D9 r => 57%N :: uint_digits r
  end.

Definition int_digits (d : Decimal.signed_int) : jsstring :=
  match d with
  | Decimal.Pos u => uint_digits u
  | Decimal.Neg u => 45%N :: uint_digits u
  end.

Definition Date_now_toString (now : Z) : jsstring := int_digits (Z.to_int now).

(** ** The data model *)

(** [type Task = { id: string; text: string; completed: boolean }] *)
Record Task := mkTask {
  id : jsstring;
  text : jsstring;
  completed : bool
}.

#[global] Instance Task_eq_dec : EqDecision Task.
Proof. solve_decision. Defined.

(** [Animated.Value]: the opacity it holds at rest (1 shown, 0 faded out).
    The frames between the two are not modelled. *)
Definition Animated_Value := Z.
Definition new_Animated_Value (v : Z) : Animated_Value := v.

(** ** [JSON.stringify] on a [Task[]]

    ECMA-262 25.5.2: an array is [[] , its elements separated by commas, []];
    an object is its own enumerable properties in creation order, each as
    the quoted key, a colon and the value; no white space is inserted since
    the source passes no [space] argument. *)

Definition is_leading_surrogate (c : char16) : bool :=
  ((55296 <=? c) && (c <=? 56319))%N.

Definition is_trailing_surrogate (c : char16) : bool :=
  ((56320 <=? c) && (c <=? 57343))%N.

Definition hex_digit (n : N) : char16 :=
  if (n <? 10)%N then (48 + n)%N else (87 + n)%N.

(** [UnicodeEscape]: a backslash, [u] and four lower-case hexadecimal digits. *)
Definition UnicodeEscape (c : char16) : jsstring :=
  [92; 117; hex_digit (c / 4096 mod 16); hex_digit (c / 256 mod 16);
   hex_digit (c / 16 mod 16); hex_digit (c mod 16)]%N.

(** One code point that is not a surrogate pair (table 75 of ECMA-262, then
    the control characters and the lone surrogates). *)
Definition quote_unit (c : char16) : jsstring :=
  if (c =? 8)%N then [92; 98]%N
  else if (c =? 9)%N then [92; 116]%N
  else if (c =? 10)%N then [92; 110]%N
  else if (c =? 12)%N then [92; 102]%N
  else if (c =? 13)%N then [92; 114]%N
  else if (c =? 34)%N then [92; 34]%N
  else if (c =? 92)%N then [92; 92]%N
  else if (c <? 32)%N || is_leading_surrogate c || is_trailing_surrogate c
       then UnicodeEscape c
  else [c].

(** The code points of the string in turn: a leading surrogate followed by a
    trailing one is one code point and is copied; every other unit is a code
    point by itself. *)
Fixpoint quote_units (s : jsstring) : jsstring :=
  match s with
  | [] => []
  | c :: r =>
    if is_leading_surrogate c then
      match r with
      | d :: r' =>
        if is_trailing_surrogate d then c :: d :: quote_units r'
        else UnicodeEscape c ++ quote_units r
      | [] => UnicodeEscape c
      end
    else quote_unit c ++ quote_units r
  end.

Definition QuoteJSONString (s : jsstring) : jsstring :=
  34%N :: quote_units s ++ [34%N].

Definition key_id : jsstring := Eval cbv in lit "id".
Definition key_text : jsstring := Eval cbv in lit "text".
Definition key_completed : jsstring := Eval cbv in lit "completed".
Definition lit_true : jsstring := Eval cbv in lit "true".
Definition lit_false : jsstring := Eval cbv in lit "false".
Definition lit_null : jsstring := Eval cbv in lit "null".

Definition stringify_boolean (b : bool) : jsstring :=
  if b then lit_true else lit_false.

Definition stringify_Task (t : Task) : jsstring :=
  123%N :: QuoteJSONString key_id ++ 58%N :: QuoteJSONString (id t)
  ++ 44%N :: QuoteJSONString key_text ++ 58%N :: QuoteJSONString (text t)
  ++ 44%N :: QuoteJSONString key_completed ++ 58%N
     :: stringify_boolean (completed t)
  ++ [125%N].

Fixpoint join_comma (l : list jsstring) : jsstring :=
  match l with
  | [] => []
  | [x] => x
  | x :: r => x ++ 44%N :: join_comma r
  end.

Definition JSON_stringify (ts : list Task) : jsstring :=
  91%N :: join_comma (stringify_Task <$> ts) ++ [93%N].

(** ** [JSON.parse]

    The JSON grammar of ECMA-404 on code units.  A number is kept as its
    lexeme: no field of a [Task] is numeric, so its value is never used.
    [None] is the [SyntaxError] that [JSON.parse] throws. *)

#[warnings="-register-all"]
Inductive JSON :=
| JNull
| JBool (b : bool)
| JNumber (lexeme : jsstring)
| JString (s : jsstring)
| JArray (elements : list JSON)
| JObject (members : list (jsstring * JSON)).

Definition is_json_ws (c : char16) : bool :=
  ((c =? 9) || (c =? 10) || (c =? 13) || (c =? 32))%N.

Fixpoint skip_ws (s : jsstring) : jsstring :=
  match s with
  | c :: r => if is_json_ws c then skip_ws r else s
  | [] => []
  end.

Definition hex_value (c : char16) : option N :=
  if ((48 <=? c) && (c <=? 57))%N then Some (c - 48)%N
  else if ((97 <=? c) && (c <=? 102))%N then Some (c - 87)%N
  else if ((65 <=? c) && (c <=? 70))%N then Some (c - 55)%N
  else None.

Definition hex4_value (a b c d : char16) : option char16 :=
  x ← hex_value a; y ← hex_value b; z ← hex_value c; w ← hex_value d;
  Some (((x * 16 + y) * 16 + z) * 16 + w)%N.

(** The character a single-letter escape stands for. *)
Definition unescape (e : char16) : option char16 :=
  if (e =? 34)%N then Some 34%N
  else if (e =? 92)%N then Some 92%N
  else if (e =? 47)%N then Some 47%N
  else if (e =? 98)%N then Some 8%N
  else if (e =? 102)%N then Some 12%N
  else if (e =? 110)%N then Some 10%N
  else if (e =? 114)%N then Some 13%N
  else if (e =? 116)%N then Some 9%N
  else None.

(** The characters of a string after its opening quote, up to and including
    the closing one. *)
Fixpoint parse_chars (s : jsstring) : option (jsstring * jsstring) :=
  match s with
  | [] => None
  | c :: r =>
    if (c =? 34)%N then Some ([], r)
    else if (c =? 92)%N then
      match r with
      | [] => None
      | e :: r1 =>
        if (e =? 117)%N then
          match r1 with
          | h1 :: h2 :: h3 :: h4 :: r2 =>
            u ← hex4_value h1 h2 h3 h4;
            '(str, rest) ← parse_chars r2;
            Some (u :: str, rest)
          | _ => None
          end
        else
          u ← unescape e;
          '(str, rest) ← parse_chars r1;
          Some (u :: str, rest)
      end
    else if (c <? 32)%N then None
    else
      '(str, rest) ← parse_chars r;
      Some (c :: str, rest)
  end.

Definition is_digit (c : char16) : bool := ((48 <=? c) && (c <=? 57))%N.

Fixpoint span_digits (s : jsstring) : jsstring * jsstring :=
  match s with
  | c :: r =>
    if is_digit c then let '(d, r') := span_digits r in (c :: d, r')
    else ([], s)
  | [] => ([], [])
  end.

(** [digit+] *)
Definition parse_digits1 (s : jsstring) : option (jsstring * jsstring) :=
  match span_digits s with
  | ([], _) => None
  | (d, r) => Some (d, r)
  end.

(** [0] or a non-zero digit and more digits. *)
Definition parse_int_part (s : jsstring) : option (jsstring * jsstring) :=
  match s with
  | c :: r =>
    if (c =? 48)%N then Some ([c], r)
    else if is_digit c then let '(d, r') := span_digits r in Some (c :: d, r')
    else None
  | [] => None
  end.

Definition parse_frac (s : jsstring) : option (jsstring * jsstring) :=
  match s with
  | c :: r =>
    if (c =? 46)%N then '(d, r') ← parse_digits1 r; Some (c :: d, r')
    else Some ([], s)
  | [] => Some ([], [])
  end.

Definition parse_exp (s : jsstring) : option (jsstring * jsstring) :=
  match s with
  | c :: r =>
    if ((c =? 101) || (c =? 69))%N then
      match r with
      | sg :: r1 =>
        if ((sg =? 43) || (sg =? 45))%N
        then '(d, r') ← parse_digits1 r1; Some (c :: sg :: d, r')
        else '(d, r') ← parse_digits1 r; Some (c :: d, r')
      | [] => None
      end
    else Some ([], s)
  | [] => Some ([], [])
  end.

Definition parse_unsigned (s : jsstring) : option (jsstring * jsstring) :=
  '(i, r1) ← parse_int_part s;
  '(f, r2) ← parse_frac r1;
  '(e, r3) ← parse_exp r2;
  Some (i ++ f ++ e, r3).

Definition parse_number (s : jsstring) : option (jsstring * jsstring) :=
  match s with
  | c :: r =>
    if (c =? 45)%N then '(n, r') ← parse_unsigned r; Some (c :: n, r')
    else parse_unsigned s
  | [] => None
  end.

Fixpoint strip_prefix (p s : jsstring) : option jsstring :=
  match p, s with
  | [], _ => Some s
  | a :: p', b :: s' => if (a =? b)%N then strip_prefix p' s' else None
  | _ :: _, [] => None
  end.

(** One level of the recursive descent: a value, the elements of an array
    after its bracket, the members of an object after its brace, each in
    terms of the parsers of the parts. *)
Section descent.
Variable value : jsstring → option (JSON * jsstring).
Variable elements : jsstring → option (list JSON * jsstring).
Variable members : jsstring → option (list (jsstring * JSON) * jsstring).

Definition value_of (s : jsstring) : option (JSON * jsstring) :=
  match skip_ws s with
  | [] => None
  | c :: r =>
    if (c =? 34)%N then
      '(str, r') ← parse_chars r; Some (JString str, r')
    else if (c =? 91)%N then
      match skip_ws r with
      | c' :: r' =>
        if (c' =? 93)%N then Some (JArray [], r')
        else '(l, r'') ← elements r; Some (JArray l, r'')
      | [] => None
      end
    else if (c =? 123)%N then
      match skip_ws r with
      | c' :: r' =>
        if (c' =? 125)%N then Some (JObject [], r')
        else '(m, r'') ← members r; Some (JObject m, r'')
      | [] => None
      end
    else if (c =? 116)%N then
      r' ← strip_prefix lit_true (c :: r); Some (JBool true, r')
    else if (c =? 102)%N then
      r' ← strip_prefix lit_false (c :: r); Some (JBool false, r')
    else if (c =? 110)%N then
      r' ← strip_prefix lit_null (c :: r); Some (JNull, r')
    else
      '(lexeme, r') ← parse_number (c :: r); Some (JNumber lexeme, r')
  end.

Definition elements_of (s : jsstring) : option (list JSON * jsstring) :=
  '(v, r) ← value s;
  match skip_ws r with
  | c :: r' =>
    if (c =? 44)%N then '(l, r'') ← elements r'; Some (v :: l, r'')
    else if (c =? 93)%N then Some ([v], r')
    else None
  | [] => None
  end.

Definition members_of (s : jsstring)
  : option (list (jsstring * JSON) * jsstring) :=
  match skip_ws s with
  | c :: r =>
    if (c =? 34)%N then
      '(k, r1) ← parse_chars r;
      match skip_ws r1 with
      | c1 :: r2 =>
        if (c1 =? 58)%N then
          '(v, r3) ← value r2;
          match skip_ws r3 with
          | c2 :: r4 =>
            if (c2 =? 44)%N then
              '(m, r5) ← members r4; Some ((k, v) :: m, r5)
            else if (c2 =? 125)%N then Some ([(k, v)], r4)
            else None
          | [] => None
          end
        else None
      | [] => None
      end
    else None
  | [] => None
  end.
End descent.

(** The descent, with one unit of [fuel] for every level. *)
Fixpoint parse_value (fuel : nat) (s : jsstring) : option (JSON * jsstring) :=
  match fuel with
  | O => None
  | S fuel => value_of (parse_elements fuel) (parse_members fuel) s
  end
with parse_elements (fuel : nat) (s : jsstring)
  : option (list JSON * jsstring) :=
  match fuel with
  | O => None
  | S fuel => elements_of (parse_value fuel) (parse_elements fuel) s
  end
with parse_members (fuel : nat) (s : jsstring)
  : option (list (jsstring * JSON) * jsstring) :=
  match fuel with
  | O => None
  | S fuel => members_of (parse_value fuel) (parse_members fuel) s
  end.

(** Every level of the descent consumes a code unit, except that an array
    spends two levels on its bracket: with twice the length as fuel the
    result no longer depends on the fuel ([parse_value_fuel] below). *)
Definition JSON_fuel (s : jsstring) : nat := 2 * length s + 2.

Definition JSON_parse (s : jsstring) : option JSON :=
  '(v, r) ← parse_value (JSON_fuel s) s;
  match skip_ws r with
  | [] => Some v
  | _ :: _ => None
  end.

(** A parser of a part of the text that consumes input when it succeeds. *)
Definition consuming {A : Type} (p : list N → option (A * list N)) : Prop :=
  ∀ s x r, p s = Some (x, r) → length r < length s.

(** The value that [JSON.parse] builds for the text of one task. *)
Definition Task_JSON (t : Task) : JSON :=
  JObject [(key_id, JString (id t)); (key_text, JString (text t));
           (key_completed, JBool (completed t))].

(** ** Reading a parsed value as a [Task[]]

    [JSON.parse] returns [any]; the source stores it in [tasks] without a
    check.  The embedding follows the program on the values that are arrays
    of records with exactly the properties [id], [text], [completed], in the
    order in which [addTask] creates them and [JSON.stringify] prints them. *)

Definition as_Task (v : JSON) : option Task :=
  match v with
  | JObject [(k1, JString i); (k2, JString t); (k3, JBool c)] =>
    if decide (k1 = key_id ∧ k2 = key_text ∧ k3 = key_completed)
    then Some (mkTask i t c) else None
  | _ => None
  end.

Definition as_Tasks (v : JSON) : option (list Task) :=
  match v with
  | JArray l => mapM as_Task l
  | _ => None
  end.

(** ** The state

    [App] holds the four [useState] cells, [World] adds what lives outside
    the component: the [AsyncStorage] entry under ['tasks'] and the fade-out
    animations that are running, each with the completion callback that
    [deleteTask] attached to it. *)

Record App := mkApp {
  task : jsstring;                             (* the text input *)
  tasks : list Task;
  editingTask : option jsstring;               (* string | null *)
  animations : gmap (list N) Animated_Value
}.

(** The closure passed to [start] in [deleteTask]: the [taskId] argument and
    the [tasks] of the render in which the press was handled. *)
Record fade_closure := mkClosure {
  closure_taskId : jsstring;
  closure_tasks : list Task
}.

Record World := mkWorld {
  app : App;
  storage : option jsstring;                   (* AsyncStorage.getItem('tasks') *)
  fading : list fade_closure
}.

(** The state of the first render: [useState('')], [useState([])],
    [useState(null)], [useState(new Map())], nothing stored, nothing fading. *)
Definition initial_App : App := mkApp [] [] None ∅.
Definition initial_World : World := mkWorld initial_App None [].

(** *** The state setters *)

Definition setTask (v : jsstring) (w : World) : World :=
  mkWorld (mkApp v (tasks (app w)) (editingTask (app w)) (animations (app w)))
          (storage w) (fading w).

Definition setTasks (v : list Task) (w : World) : World :=
  mkWorld (mkApp (task (app w)) v (editingTask (app w)) (animations (app w)))
          (storage w) (fading w).

Definition setEditingTask (v : option jsstring) (w : World) : World :=
  mkWorld (mkApp (task (app w)) (tasks (app w)) v (animations (app w)))
          (storage w) (fading w).

(** [setAnimations] is called with a map in [loadTasks] and with an updater
    function of the previous map in [addTask] and [deleteTask]. *)
Definition setAnimations
    (f : gmap (list N) Animated_Value → gmap (list N) Animated_Value)
    (w : World) : World :=
  mkWorld (mkApp (task (app w)) (tasks (app w)) (editingTask (app w))
                 (f (animations (app w))))
          (storage w) (fading w).

(** [saveTasks]: [AsyncStorage.setItem('tasks', JSON.stringify(tasks))]. *)
Definition saveTasks (ts : list Task) (w : World) : World :=
  mkWorld (app w) (Some (JSON_stringify ts)) (fading w).

(** *** [loadTasks]

    The promise either resolves (after zero or two setter calls) or rejects
    with the [SyntaxError] of [JSON.parse], before any setter has run.  On a
    parsed value that [as_Tasks] does not read as a [Task[]] the source calls
    [setTasks] with it all the same; the state then leaves the typed model
    and the embedding returns the value.  After [setTasks] the promise
    resolves ([Stored_unchecked]: [forEach] ran through and
    [setAnimations] was called), or it rejects with the [TypeError] of
    [parsedTasks.forEach] ([Rejected_TypeError]: [setAnimations] was not
    called). *)
Inductive load_result :=
| Resolved (w : World)
| Rejected_SyntaxError (w : World)
| Stored_unchecked (v : JSON)
| Rejected_TypeError (v : JSON).

(** Whether [parsedTasks.forEach(task => ... task.id ... task.completed ...)]
    throws on a parsed value.  A value that is no array has no callable
    [forEach] ([null] has no properties at all, and a property of an object
    parsed from JSON is never a function).  On an array the callback reads
    properties of every element, which throws on [null] and on nothing
    else: a property of a number, a string, a boolean, an array or an
    object that lacks it is [undefined]. *)
Definition forEach_throws (v : JSON) : bool :=
  match v with
  | JArray l => existsb (λ x, match x with JNull => true | _ => false end) l
  | _ => true
  end.

(** [parsedTasks.forEach(task => newAnimations.set(task.id, new Animated.Value(...)))] *)
Definition animations_of (parsedTasks : list Task)
  : gmap (list N) Animated_Value :=
  foldl (λ newAnimations t,
           <[id t := new_Animated_Value (if completed t then 1 else 1)]>
             newAnimations)
        ∅ parsedTasks.

Definition loadTasks (w : World) : load_result :=
  let savedTasks := storage w in
  if truthy_opt savedTasks then
    match savedTasks ≫= JSON_parse with
    | None => Rejected_SyntaxError w
    | Some v =>
      match as_Tasks v with
      | Some parsedTasks =>
        Resolved (setAnimations (λ _, animations_of parsedTasks)
                    (setTasks parsedTasks w))
      | None =>
        if forEach_throws v then Rejected_TypeError v else Stored_unchecked v
      end
    end
  else Resolved w.

(** *** The handlers *)

(** [addTask], with the reading of [Date.now()] at the call. *)
Definition addTask (now : Z) (w : World) : World :=
  if truthy (trim (task (app w))) then
    let newTask := mkTask (Date_now_toString now) (task (app w)) false in
    let updatedTasks := tasks (app w) ++ [newTask] in
    setAnimations (λ prevAnimations,
                     <[id newTask := new_Animated_Value 1]> prevAnimations)
      (setTask []
         (saveTasks updatedTasks
            (setTasks updatedTasks w)))
  else w.

Definition toggleCompletion (taskId : jsstring) (w : World) : World :=
  let updatedTasks :=
    (λ item, if decide (id item = taskId)
             then mkTask (id item) (text item) (negb (completed item))
             else item) <$> tasks (app w) in
  saveTasks updatedTasks (setTasks updatedTasks w).

Definition editTask (taskId : jsstring) (w : World) : World :=
  match List.find (λ item, bool_decide (id item = taskId)) (tasks (app w)) with
  | Some taskToEdit => setEditingTask (Some taskId) (setTask (text taskToEdit) w)
  | None => w
  end.

Definition updateTask (w : World) : World :=
  if truthy (trim (task (app w))) && truthy_opt (editingTask (app w)) then
    let updatedTasks :=
      (λ item, if decide (Some (id item) = editingTask (app w))
               then mkTask (id item) (task (app w)) (completed item)
               else item) <$> tasks (app w) in
    setEditingTask None
      (setTask []
         (saveTasks updatedTasks
            (setTasks updatedTasks w)))
  else w.

(** [deleteTask]: the press.  With an animation value for [taskId] the
    fade-out starts and its completion callback is registered; it closes
    over [taskId] and over the [tasks] of this render. *)
Definition deleteTask (taskId : jsstring) (w : World) : World :=
  match animations (app w) !! taskId with
  | Some fadeValue =>
    mkWorld (app w) (storage w)
            (fading w ++ [mkClosure taskId (tasks (app w))])
  | None => w
  end.

(** The body of the completion callback, run on the state of the moment the
    animation ends. *)
Definition fade_callback (c : fade_closure) (w : World) : World :=
  let updatedTasks :=
    filter (λ item, id item ≠ closure_taskId c) (closure_tasks c) in
  setAnimations (λ prevAnimations, delete (closure_taskId c) prevAnimations)
    (saveTasks updatedTasks
       (setTasks updatedTasks w)).

(** The [k]-th running fade-out ends. *)
Definition fade_end (k : nat) (w : World) : World :=
  match fading w !! k with
  | Some c =>
    fade_callback c
      (mkWorld (app w) (storage w) (take k (fading w) ++ drop (S k) (fading w)))
  | None => w
  end.

(** The text input and the confirm button of the render
    ([onPress={editingTask ? updateTask : addTask}]). *)
Definition onChangeText (t : jsstring) (w : World) : World := setTask t w.

Definition onPress (now : Z) (w : World) : World :=
  if truthy_opt (editingTask (app w)) then updateTask w else addTask now w.

(** The active edit target, as the render and [updateTask] test for it
    ([editingTask ? updateTask : addTask], [task.trim() && editingTask]):
    an [editingTask] that is neither [null] nor the empty string. *)
Definition active_edit_target (w : World) : option jsstring :=
  if truthy_opt (editingTask (app w)) then editingTask (app w) else None.

(** [deleteTask] followed by the end of the fade-out it started, with no
    other event in between: the run in which the closure's [tasks] is still
    the current one. *)
Definition deleteTask_and_fade (taskId : jsstring) (w : World) : World :=
  fade_end (length (fading w)) (deleteTask taskId w).

(** The events of a run: what the user types and presses, and the end of a
    running fade-out. *)
Inductive event :=
| Type_text (t : jsstring)
| Press_add (now : Z)
| Press_toggle (taskId : jsstring)
| Press_edit (taskId : jsstring)
| Press_update
| Press_delete (taskId : jsstring)
| Fade_end (k : nat).

Definition step (e : event) (w : World) : World :=
  match e with
  | Type_text t => onChangeText t w
  | Press_add now => addTask now w
  | Press_toggle taskId => toggleCompletion taskId w
  | Press_edit taskId => editTask taskId w
  | Press_update => updateTask w
  | Press_delete taskId => deleteTask taskId w
  | Fade_end k => fade_end k w
  end.

Definition run (es : list event) (w : World) : World :=
  foldl (λ w e, step e w) w es.

(** [add(rawText)]: the text is typed, then the button is pressed at the
    clock reading [now]. *)
Definition add (rawText : jsstring) (now : Z) (w : World) : World :=
  addTask now (onChangeText rawText w).

(** A sequence of [add] calls, each with its text and its clock reading. *)
Definition add_all (calls : list (jsstring * Z)) (w : World) : World :=
  foldl (λ w c, add c.1 c.2 w) w calls.

(** The task store operations when no two of them overlap: a delete is the
    press together with the end of its fade-out. *)
Inductive operation :=
| Op_type (t : jsstring)
| Op_add (now : Z)
| Op_toggle (taskId : jsstring)
| Op_edit (taskId : jsstring)
| Op_update
| Op_delete (taskId : jsstring).

Definition perform (o : operation) (w : World) : World :=
  match o with
  | Op_type t => onChangeText t w
  | Op_add now => addTask now w
  | Op_toggle taskId => toggleCompletion taskId w
  | Op_edit taskId => editTask taskId w
  | Op_update => updateTask w
  | Op_delete taskId => deleteTask_and_fade taskId w
  end.

(** *** Sample states *)

(** The first render with a text typed in. *)
Definition typed_milk : World := onChangeText (lit "Buy milk") initial_World.

(** One task added at clock reading 5, and a second text typed in. *)
Definition one_added_at_5 : World :=
  run [Type_text (lit "a"); Press_add 5; Type_text (lit "b")] initial_World.

(** Only blanks typed in. *)
Definition typed_blanks : World := onChangeText (lit "   ") initial_World.

(** Two tasks, the first of them completed. *)
Definition two_tasks : World :=
  run [Type_text (lit "A"); Press_add 1; Type_text (lit "B"); Press_add 2;
       Press_toggle (lit "1")] initial_World.

(** [two_tasks] with the first task under edit and a new text typed in. *)
Definition editing_first : World :=
  run [Press_edit (lit "1"); Type_text (lit "Buy oat milk")] two_tasks.

(** A stored collection whose only task has the empty string as its id; the
    state [loadTasks] restores from it; that state with the task under edit
    and a text typed in. *)
Definition stored_empty_id : World :=
  mkWorld initial_App
          (Some (JSON_stringify [mkTask [] (lit "a") true])) [].

Definition loaded_empty_id : World :=
  match loadTasks stored_empty_id with
  | Resolved w => w
  | _ => stored_empty_id
  end.

Definition editing_empty_id : World :=
  run [Press_edit []; Type_text (lit "x")] loaded_empty_id.

(** The same after the task under edit has been deleted. *)
Definition editing_deleted_empty_id : World :=
  run [Press_edit []; Press_delete []; Fade_end 0; Type_text (lit "x")]
      loaded_empty_id.

(** [two_tasks] with the first task under edit, then deleted. *)
Definition editing_deleted : World :=
  run [Press_edit (lit "1"); Press_delete (lit "1"); Fade_end 0;
       Type_text (lit "x")] two_tasks.

(** Two tasks added, the delete button of both pressed before either
    fade-out has ended, then both fade-outs end. *)
Definition overlapping_deletes : list event :=
  [Type_text (lit "A"); Press_add 1; Type_text (lit "B"); Press_add 2;
   Press_delete (lit "1"); Press_delete (lit "2"); Fade_end 0; Fade_end 0].

(** The state those events lead to: the first task is back in the
    collection and has no animation value. *)
Definition after_overlapping_deletes : World :=
  run overlapping_deletes initial_World.

(** The store holding the empty string, and holding a number in an array. *)
Definition stored_empty_string : World := mkWorld initial_App (Some []) [].
Definition stored_number_array : World :=
  mkWorld initial_App (Some (lit "[1]")) [].

(** The store holding [null], and holding an array with [null] in it. *)
Definition stored_null : World := mkWorld initial_App (Some (lit "null")) [].
Definition stored_null_array : World :=
  mkWorld initial_App (Some (lit "[null]")) [].

(** The store holding a text that breaks off. *)
Definition stored_broken : World :=
  mkWorld initial_App (Some (lit "[{")) [].

(** Every task of the collection has an animation value. *)
Definition animated (w : World) : Prop :=
  ∀ item, item ∈ tasks (app w) → is_Some (animations (app w) !! id item).

(** ** The render and the start of the app *)

(** The label of the confirm button: [editingTask ? '✓' : '+']. *)
Definition button_label (w : World) : jsstring :=
  if truthy_opt (editingTask (app w)) then [10003%N] else [43%N].

(** The opacity value [renderItem] gives to a task:
    [animations.get(item.id) || new Animated.Value(0)].  An
    [Animated.Value] is an object, hence truthy: the fallback is taken for
    the ids without an entry and for no other. *)
Definition fadeAnim (w : World) (item : Task) : Animated_Value :=
  default (new_Animated_Value 0) (animations (app w) !! id item).

(** The start of the app on a device whose store holds [stored]: the first
    render, then [useEffect(() => { loadTasks(); }, [])]. *)
Definition mount (stored : option jsstring) : load_result :=
  loadTasks (mkWorld initial_App stored []).

Definition perform_all (os : list operation) (w : World) : World :=
  foldl (λ w o, perform o w) w os.

(** ** What a run can do to the collection *)

(** A task whose text passes the test of [addTask] and [updateTask]. *)
Definition nonblank (item : Task) : Prop := truthy (trim (text item)) = true.

Definition is_fade_end (e : event) : bool :=
  match e with Fade_end _ => true | _ => false end.

(** The ids that the clock readings of the add presses of a run print as,
    in the order of the presses. *)
Fixpoint added_ids (es : list event) : list (list N) :=
  match es with
  | [] => []
  | Press_add now :: es => Date_now_toString now :: added_ids es
  | _ :: es => added_ids es
  end.

(** The collections an event can leave in [tasks]: the one that was there,
    that one with a task appended by an add, with the tasks of an id
    toggled or given the typed text, or the collection that a running
    fade-out captured, without the tasks of its id. *)
Inductive effect (w : World) (e : event) : list Task → Prop :=
| effect_none : effect w e (tasks (app w))
| effect_add now :
    e = Press_add now → truthy (trim (task (app w))) = true →
    effect w e (tasks (app w)
                ++ [mkTask (Date_now_toString now) (task (app w)) false])
| effect_toggle taskId :
    effect w e ((λ item, if decide (id item = taskId)
                         then mkTask (id item) (text item)
                                     (negb (completed item))
                         else item) <$> tasks (app w))
| effect_update taskId :
    truthy (trim (task (app w))) = true →
    effect w e ((λ item, if decide (id item = taskId)
                         then mkTask (id item) (task (app w))
                                     (completed item)
                         else item) <$> tasks (app w))
| effect_fade c :
    c ∈ fading w →
    effect w e (filter (λ item, id item ≠ closure_taskId c)
                       (closure_tasks c)).

(** [P] holds of the collection and of every collection that a running
    fade-out has captured. *)
Definition everywhere (P : list Task → Prop) (w : World) : Prop :=
  P (tasks (app w)) ∧ Forall (λ c, P (closure_tasks c)) (fading w).


(** Every task of the collection has an animation value at full opacity. *)
Definition opaque (w : World) : Prop :=
  ∀ item, item ∈ tasks (app w) → animations (app w) !! id item = Some (new_Animated_Value 1).

(** * Properties *)

(** ** Strings *)

Lemma uint_digits_inj (d d' : Decimal.uint) :
  uint_digits d = uint_digits d' → d = d'.
Proof.
  revert d'; induction d; intros [] H; simpl in H;
    try discriminate; try reflexivity; f_equal; apply IHd; congruence.
Qed.

Lemma uint_digits_no_sign (d : Decimal.uint) (r : jsstring) :
  uint_digits d ≠ 45%N :: r.
Proof. destruct d; discriminate. Qed.

Lemma Date_now_toString_inj (m n : Z) :
  Date_now_toString m = Date_now_toString n → m = n.
Proof.
  unfold Date_now_toString; intros H. apply DecimalZ.to_int_inj.
  destruct (Z.to_int m) as [u|u], (Z.to_int n) as [v|v]; simpl in H.
  - f_equal. by apply uint_digits_inj.
  - by apply uint_digits_no_sign in H.
  - symmetry in H. by apply uint_digits_no_sign in H.
  - f_equal. apply uint_digits_inj. congruence.
Qed.

Lemma trimStart_nil_iff (s : jsstring) :
  trimStart s = [] ↔ Forall (λ c, is_trim_space c = true) s.
Proof.
  induction s as [|c s IH]; simpl; [by split|].
  destruct (is_trim_space c) eqn:E.
  - rewrite IH. split; [by constructor|by inversion 1].
  - split; [done|]. inversion 1; congruence.
Qed.

Lemma trimStart_spaces (s : jsstring) :
  Forall (λ c, is_trim_space c = true) (trimStart s) →
  Forall (λ c, is_trim_space c = true) s.
Proof.
  induction s as [|c s IH]; simpl; [done|].
  destruct (is_trim_space c) eqn:E; [|done].
  intros H. constructor; auto.
Qed.

(** The trimmed form is empty exactly for the strings made of white space. *)
Lemma trim_nil_iff (s : jsstring) :
  trim s = [] ↔ Forall (λ c, is_trim_space c = true) s.
Proof.
  unfold trim, trimEnd. split.
  - intros H. apply trimStart_spaces.
    destruct (trimStart (rev (trimStart s))) eqn:E.
    + apply trimStart_nil_iff in E.
      rewrite <- (rev_involutive (trimStart s)). by apply Forall_rev.
    + simpl in H. by destruct (rev l).
  - intros H. apply trimStart_nil_iff in H. by rewrite H.
Qed.

Lemma truthy_false (s : jsstring) : truthy s = false ↔ s = [].
Proof. by destruct s. Qed.

Lemma truthy_true (s : jsstring) : truthy s = true ↔ s ≠ [].
Proof. by destruct s. Qed.

(** ** The handlers, one by one *)

Lemma Task_eta (t : Task) : mkTask (id t) (text t) (completed t) = t.
Proof. by destruct t. Qed.

(** What [addTask] does on an input that passes its test. *)
Lemma addTask_accept (now : Z) (w : World) :
  truthy (trim (task (app w))) = true →
  addTask now w =
    mkWorld
      (mkApp [] (tasks (app w)
                 ++ [mkTask (Date_now_toString now) (task (app w)) false])
             (editingTask (app w))
             (<[Date_now_toString now := 1%Z]> (animations (app w))))
      (Some (JSON_stringify
               (tasks (app w)
                ++ [mkTask (Date_now_toString now) (task (app w)) false])))
      (fading w).
Proof. unfold addTask. by intros ->. Qed.

Lemma addTask_reject (now : Z) (w : World) :
  truthy (trim (task (app w))) = false → addTask now w = w.
Proof. unfold addTask. by intros ->. Qed.

Lemma updateTask_reject (w : World) :
  truthy (trim (task (app w))) = false → updateTask w = w.
Proof. unfold updateTask. by intros ->. Qed.

(** An empty [editingTask] is falsy: the render and [updateTask] take it
    for [null], and the button adds a task. *)
Lemma updateTask_empty_target (now : Z) (w : World) :
  editingTask (app w) = Some [] →
  active_edit_target w = None ∧ updateTask w = w ∧ onPress now w = addTask now w.
Proof.
  unfold active_edit_target, updateTask, onPress. intros ->. simpl.
  by rewrite andb_false_r.
Qed.

Lemma active_edit_target_Some (taskId : jsstring) (w : World) :
  active_edit_target w = Some taskId ↔
  editingTask (app w) = Some taskId ∧ taskId ≠ [].
Proof.
  unfold active_edit_target.
  destruct (editingTask (app w)) as [[|c t]|]; simpl.
  - split; [done|]. by intros [[= <-] ?].
  - split; [by intros [= <-]|]. by intros [[= <-] ?].
  - split; [done|]. by intros [? ?].
Qed.

Lemma updateTask_accept (taskId : jsstring) (w : World) :
  truthy (trim (task (app w))) = true →
  editingTask (app w) = Some taskId → taskId ≠ [] →
  updateTask w =
    let updatedTasks :=
      (λ item, if decide (id item = taskId)
               then mkTask (id item) (task (app w)) (completed item)
               else item) <$> tasks (app w) in
    mkWorld (mkApp [] updatedTasks None (animations (app w)))
            (Some (JSON_stringify updatedTasks)) (fading w).
Proof.
  unfold updateTask. intros -> -> Hne%truthy_true. simpl. rewrite Hne. simpl.
  assert (E : ∀ l : list Task,
    (λ item, if decide (Some (id item) = Some taskId)
             then mkTask (id item) (task (app w)) (completed item)
             else item) <$> l
    = (λ item, if decide (id item = taskId)
               then mkTask (id item) (task (app w)) (completed item)
               else item) <$> l).
  { intros l. apply list_fmap_ext. intros _ item _.
    repeat case_decide; congruence. }
  unfold setEditingTask, setTask, saveTasks, setTasks; simpl.
  by rewrite E.
Qed.

(** Mapping a function that only touches the tasks named [taskId] over a
    collection without such a task changes nothing. *)
Lemma fmap_unmatched (f : Task → Task) (taskId : jsstring) (l : list Task) :
  (∀ item, item ∈ l → id item ≠ taskId) →
  (λ item, if decide (id item = taskId) then f item else item) <$> l = l.
Proof.
  intros H. rewrite <- (list_fmap_id l) at 2.
  apply list_fmap_ext. intros i item Hi.
  case_decide; [|done]. exfalso. eapply H; [|done].
  eapply list_elem_of_lookup_2; done.
Qed.

(** ** Adding *)

(** C3, as amended: on a text whose trimmed form is not empty, [addTask]
    appends exactly one task, with the decimal string of the clock reading
    as its id, the text as typed and [completed = false]; the tasks that
    were there keep their places and values; the whole new collection is
    written to the store; the text input is cleared.  The id is new to the
    collection whenever no task carries that string already. *)
Theorem addTask_appends (now : Z) (w : World) :
  truthy (trim (task (app w))) = true →
  let newTask := mkTask (Date_now_toString now) (task (app w)) false in
  let w' := addTask now w in
  tasks (app w') = tasks (app w) ++ [newTask]
  ∧ length (tasks (app w')) = S (length (tasks (app w)))
  ∧ (∀ i item, tasks (app w) !! i = Some item →
               tasks (app w') !! i = Some item)
  ∧ storage w' = Some (JSON_stringify (tasks (app w')))
  ∧ task (app w') = []
  ∧ editingTask (app w') = editingTask (app w)
  ∧ (Date_now_toString now ∉ id <$> tasks (app w) →
     ∀ item, item ∈ tasks (app w) → id item ≠ id newTask).
Proof.
  intros H. simpl. rewrite (addTask_accept now w H). simpl.
  repeat split; try done.
  - rewrite length_app. simpl. lia.
  - intros i item Hi. by apply lookup_app_l_Some.
  - intros Hfresh item Hitem Heq. apply Hfresh.
    rewrite <- Heq. by apply list_elem_of_fmap_2.
Qed.

Lemma addTask_appends_witness :
  truthy (trim (task (app typed_milk))) = true
  ∧ tasks (app (addTask 1700000000000 typed_milk))
    = [mkTask (lit "1700000000000") (lit "Buy milk") false]
  ∧ storage (addTask 1700000000000 typed_milk)
    = Some (JSON_stringify
              [mkTask (lit "1700000000000") (lit "Buy milk") false])
  ∧ task (app (addTask 1700000000000 typed_milk)) = []
  ∧ (∀ item, item ∈ tasks (app typed_milk) →
             id item ≠ lit "1700000000000").
Proof.
  pose proof (addTask_appends 1700000000000 typed_milk eq_refl) as H.
  simpl in H. destruct H as (H1 & _ & _ & H2 & H3 & _ & H4).
  split; [reflexivity|]. split; [exact H1|]. split; [exact H2|].
  split; [exact H3|]. apply H4. apply not_elem_of_nil.
Defined.

(** C3 as stated fails: the id of the new task is the clock reading, and a
    reading that comes back gives the id of an earlier task again. *)
Lemma addTask_id_not_fresh :
  truthy (trim (task (app one_added_at_5))) = true
  ∧ tasks (app one_added_at_5) = [mkTask (lit "5") (lit "a") false]
  ∧ tasks (app (addTask 5 one_added_at_5))
    = [mkTask (lit "5") (lit "a") false; mkTask (lit "5") (lit "b") false].
Proof. by vm_compute. Qed.

(** C6: on an input whose trimmed form is empty (the empty string, or white
    space only), [addTask] and [updateTask] change nothing: the collection,
    the stored value, the text input and every other cell stay as they are,
    whichever handler the button dispatches to.  Both return normally, as
    every handler of the embedding does. *)
Theorem blank_input_ignored (now : Z) (w : World) :
  trim (task (app w)) = [] →
  addTask now w = w ∧ updateTask w = w ∧ onPress now w = w.
Proof.
  intros H%truthy_false.
  assert (Ha := addTask_reject now w H).
  assert (Hu := updateTask_reject w H).
  repeat split; try done. unfold onPress. by destruct truthy_opt.
Qed.

Lemma blank_input_ignored_witness :
  trim (task (app typed_blanks)) = []
  ∧ addTask 7 typed_blanks = typed_blanks
  ∧ updateTask typed_blanks = typed_blanks.
Proof.
  split; [reflexivity|].
  destruct (blank_input_ignored 7 typed_blanks eq_refl) as (Ha & Hu & _).
  split; [exact Ha|exact Hu].
Defined.

(** ** Toggling *)

(** C5: [toggleCompletion] twice gives the collection back; once, it flips
    [completed] on the tasks whose id is [taskId] and on no other, keeps
    every id, text and place, writes the collection to the store, and
    returns the collection itself when no task has that id. *)
Theorem toggleCompletion_twice (taskId : jsstring) (w : World) :
  tasks (app (toggleCompletion taskId (toggleCompletion taskId w)))
  = tasks (app w)
  ∧ length (tasks (app (toggleCompletion taskId w))) = length (tasks (app w))
  ∧ (∀ i item, tasks (app w) !! i = Some item →
       tasks (app (toggleCompletion taskId w)) !! i
       = Some (if decide (id item = taskId)
               then mkTask (id item) (text item) (negb (completed item))
               else item))
  ∧ ((∀ item, item ∈ tasks (app w) → id item ≠ taskId) →
     tasks (app (toggleCompletion taskId w)) = tasks (app w))
  ∧ storage (toggleCompletion taskId w)
    = Some (JSON_stringify (tasks (app (toggleCompletion taskId w))))
  ∧ task (app (toggleCompletion taskId w)) = task (app w)
  ∧ editingTask (app (toggleCompletion taskId w)) = editingTask (app w)
  ∧ animations (app (toggleCompletion taskId w)) = animations (app w).
Proof.
  unfold toggleCompletion; simpl. repeat split.
  - rewrite <- list_fmap_compose. rewrite <- (list_fmap_id (tasks (app w))) at 2.
    apply list_fmap_ext. intros _ item _. simpl.
    destruct (decide (id item = taskId)) as [E|E]; simpl.
    + rewrite decide_True by done. rewrite negb_involutive. apply Task_eta.
    + by rewrite decide_False.
  - by rewrite length_fmap.
  - intros i item Hi. rewrite list_lookup_fmap, Hi. done.
  - apply (fmap_unmatched
             (λ item, mkTask (id item) (text item) (negb (completed item)))).
Qed.

Lemma toggleCompletion_twice_witness :
  (∀ item, item ∈ tasks (app typed_milk) → id item ≠ lit "9")
  ∧ tasks (app (toggleCompletion (lit "9") typed_milk))
    = tasks (app typed_milk).
Proof.
  assert (H : ∀ item, item ∈ tasks (app typed_milk) → id item ≠ lit "9")
    by (intros item Hitem; inversion Hitem).
  split; [exact H|].
  exact (proj1 (proj2 (proj2 (proj2
           (toggleCompletion_twice (lit "9") typed_milk)))) H).
Defined.

(** ** Editing *)

(** C4, as amended: with a non-empty [taskId], the id of a task of the
    collection, as the edit target and a text whose trimmed form is not
    empty, [updateTask] puts the text into the tasks whose id is [taskId],
    keeps their id and [completed], keeps every other task and every place,
    writes the collection to the store, and clears the text input and the
    edit target. *)
Theorem updateTask_replaces_text (taskId : jsstring) (w : World) :
  taskId ≠ [] →
  editingTask (app w) = Some taskId →
  truthy (trim (task (app w))) = true →
  (∃ item, item ∈ tasks (app w) ∧ id item = taskId) →
  let w' := updateTask w in
  length (tasks (app w')) = length (tasks (app w))
  ∧ (∀ i item, tasks (app w) !! i = Some item →
       tasks (app w') !! i
       = Some (if decide (id item = taskId)
               then mkTask (id item) (task (app w)) (completed item)
               else item))
  ∧ (∃ item, item ∈ tasks (app w') ∧ id item = taskId
             ∧ text item = task (app w))
  ∧ storage w' = Some (JSON_stringify (tasks (app w')))
  ∧ task (app w') = []
  ∧ editingTask (app w') = None
  ∧ active_edit_target w' = None
  ∧ animations (app w') = animations (app w).
Proof.
  intros Hne Hed Htxt (item & Hitem & Hid). simpl.
  rewrite (updateTask_accept taskId w Htxt Hed Hne). simpl.
  repeat split; try done.
  - by rewrite length_fmap.
  - intros i x Hx. by rewrite list_lookup_fmap, Hx.
  - exists (mkTask (id item) (task (app w)) (completed item)).
    repeat split; [|done].
    apply list_elem_of_fmap. exists item. by rewrite decide_True.
Qed.

Lemma updateTask_replaces_text_witness :
  tasks (app editing_first)
  = [mkTask (lit "1") (lit "A") true; mkTask (lit "2") (lit "B") false]
  ∧ editingTask (app editing_first) = Some (lit "1")
  ∧ tasks (app (updateTask editing_first))
    = [mkTask (lit "1") (lit "Buy oat milk") true;
       mkTask (lit "2") (lit "B") false]
  ∧ editingTask (app (updateTask editing_first)) = None.
Proof.
  assert (Hin : ∃ item, item ∈ tasks (app editing_first)
                        ∧ id item = lit "1").
  { exists (mkTask (lit "1") (lit "A") true). split; [|reflexivity].
    apply list_elem_of_here. }
  assert (Hne : lit "1" ≠ []) by discriminate.
  pose proof (updateTask_replaces_text (lit "1") editing_first
                Hne eq_refl eq_refl Hin) as (Hlen & Hl & _ & _ & _ & He & _).
  split; [reflexivity|]. split; [reflexivity|]. split; [|exact He].
  pose proof (Hl 0 _ eq_refl) as H0. pose proof (Hl 1 _ eq_refl) as H1.
  apply list_eq. intros [|[|i]]; [exact H0|exact H1|].
  apply lookup_ge_None_2. rewrite Hlen. simpl. lia.
Defined.

(** C4 as stated fails on the empty id.  A restored task whose id is the
    empty string is in the collection and [editTask] records its id, but
    [updateTask] tests the target for truthiness (line 78), takes the
    empty string for no target and leaves the task as it is; the confirm
    button itself (line 123) adds a task instead. *)
Lemma updateTask_ignores_empty_id :
  loadTasks stored_empty_id = Resolved loaded_empty_id
  ∧ tasks (app editing_empty_id) = [mkTask [] (lit "a") true]
  ∧ editingTask (app editing_empty_id) = Some []
  ∧ task (app editing_empty_id) = lit "x"
  ∧ updateTask editing_empty_id = editing_empty_id
  ∧ tasks (app (onPress 9 editing_empty_id))
    = [mkTask [] (lit "a") true; mkTask (lit "9") (lit "x") false].
Proof. by vm_compute. Qed.

(** C10, as amended: with a non-empty edit target that no task of the
    collection carries (the task was deleted after the edit began) and a
    text whose trimmed form is not empty, [updateTask] leaves the
    collection as it is, element for element, writes it to the store all
    the same, and clears the text input and the edit target: the edit is
    over. *)
Theorem updateTask_missing_target (target : jsstring) (w : World) :
  target ≠ [] →
  editingTask (app w) = Some target →
  truthy (trim (task (app w))) = true →
  (∀ item, item ∈ tasks (app w) → id item ≠ target) →
  tasks (app (updateTask w)) = tasks (app w)
  ∧ storage (updateTask w) = Some (JSON_stringify (tasks (app w)))
  ∧ task (app (updateTask w)) = []
  ∧ editingTask (app (updateTask w)) = None
  ∧ active_edit_target (updateTask w) = None.
Proof.
  intros Hne Hed Htxt Hnone.
  rewrite (updateTask_accept target w Htxt Hed Hne). simpl.
  rewrite (fmap_unmatched
             (λ item, mkTask (id item) (task (app w)) (completed item))
             target _ Hnone).
  done.
Qed.

Lemma updateTask_missing_target_witness :
  editingTask (app editing_deleted) = Some (lit "1")
  ∧ tasks (app editing_deleted) = [mkTask (lit "2") (lit "B") false]
  ∧ tasks (app (updateTask editing_deleted))
    = [mkTask (lit "2") (lit "B") false]
  ∧ storage (updateTask editing_deleted)
    = Some (JSON_stringify [mkTask (lit "2") (lit "B") false])
  ∧ task (app (updateTask editing_deleted)) = []
  ∧ editingTask (app (updateTask editing_deleted)) = None.
Proof.
  assert (Hne : lit "1" ≠ []) by discriminate.
  assert (Hnone : ∀ item, item ∈ tasks (app editing_deleted)
                          → id item ≠ lit "1").
  { intros item Hitem. apply list_elem_of_singleton in Hitem. by subst. }
  pose proof (updateTask_missing_target (lit "1") editing_deleted
                Hne eq_refl eq_refl Hnone) as (Ht & Hs & Hi & He & _).
  split; [reflexivity|]. split; [reflexivity|].
  split; [exact Ht|]. split; [exact Hs|]. split; [exact Hi|exact He].
Defined.

(** C10 as stated fails on the empty target, left behind by the deletion of
    a restored task with the empty id while it was under edit: the target
    is set and no task carries it, yet [updateTask] writes nothing and
    clears neither the text input nor the target. *)
Lemma updateTask_keeps_empty_target :
  loadTasks stored_empty_id = Resolved loaded_empty_id
  ∧ tasks (app editing_deleted_empty_id) = []
  ∧ editingTask (app editing_deleted_empty_id) = Some []
  ∧ task (app editing_deleted_empty_id) = lit "x"
  ∧ truthy (trim (task (app editing_deleted_empty_id))) = true
  ∧ updateTask editing_deleted_empty_id = editing_deleted_empty_id.
Proof. by vm_compute. Qed.

(** ** Sequences of adds *)

Lemma add_accept (rawText : jsstring) (now : Z) (w : World) :
  truthy (trim rawText) = true →
  tasks (app (add rawText now w))
  = tasks (app w) ++ [mkTask (Date_now_toString now) rawText false].
Proof.
  intros H. unfold add.
  by rewrite (addTask_accept now (onChangeText rawText w) H).
Qed.

Lemma add_all_tasks (calls : list (jsstring * Z)) (w : World) :
  Forall (λ c, truthy (trim c.1) = true) calls →
  tasks (app (add_all calls w))
  = tasks (app w)
    ++ ((λ c, mkTask (Date_now_toString c.2) c.1 false) <$> calls).
Proof.
  intros H. revert w. induction H as [|c calls Hc _ IH]; intros w; simpl.
  - by rewrite app_nil_r.
  - unfold add_all in *. simpl. rewrite IH, (add_accept _ _ _ Hc).
    by rewrite <- app_assoc.
Qed.

(** C1, as amended: a sequence of [add] calls with texts whose trimmed form
    is not empty, from any state, makes the collection longer by the number
    of calls.  After every prefix of the sequence the ids are pairwise
    distinct, provided they were so at the start, no two calls read the
    same clock value, and no reading prints as an id of the start. *)
Theorem add_all_length_distinct (calls : list (jsstring * Z)) (w : World) :
  Forall (λ c, truthy (trim c.1) = true) calls →
  length (tasks (app (add_all calls w)))
  = length (tasks (app w)) + length calls
  ∧ (NoDup (id <$> tasks (app w)) →
     NoDup (calls.*2) →
     (∀ c, c ∈ calls → Date_now_toString c.2 ∉ id <$> tasks (app w)) →
     ∀ n, NoDup (id <$> tasks (app (add_all (take n calls) w)))).
Proof.
  intros H. split.
  - by rewrite (add_all_tasks _ _ H), length_app, length_fmap.
  - intros Hstart Hclock Hfresh n.
    rewrite (add_all_tasks _ _ (Forall_take _ n _ H)).
    rewrite fmap_app, <- list_fmap_compose. apply NoDup_app.
    split; [done|]. split.
    + intros i Hi Hi'. apply list_elem_of_fmap in Hi' as (c & -> & Hc).
      apply (Hfresh c); [|done]. by apply (subseteq_take n).
    + replace ((id ∘ λ c : list N * Z, mkTask (Date_now_toString c.2) c.1 false)
               <$> take n calls)
        with (Date_now_toString <$> (take n calls).*2)
        by (rewrite <- list_fmap_compose; by apply list_fmap_ext).
      apply NoDup_fmap_2; [exact Date_now_toString_inj|].
      rewrite fmap_take. eapply sublist_NoDup; [done|apply sublist_take].
Qed.

Lemma add_all_length_distinct_witness :
  length (tasks (app (add_all [(lit "A", 1%Z); (lit "B", 2%Z)] typed_milk)))
  = 2
  ∧ NoDup (id <$> tasks (app (add_all [(lit "A", 1%Z); (lit "B", 2%Z)]
                                       typed_milk))).
Proof.
  assert (Htxt : Forall (λ c : list N * Z, truthy (trim c.1) = true)
                        [(lit "A", 1%Z); (lit "B", 2%Z)])
    by (repeat constructor).
  destruct (add_all_length_distinct _ typed_milk Htxt) as [Hlen Hdis].
  split; [exact Hlen|].
  apply (Hdis (NoDup_nil_2 : NoDup (id <$> tasks (app typed_milk))))
    with (n := 2).
  - apply NoDup_cons. split; [|apply NoDup_singleton].
    intros Hin. apply list_elem_of_singleton in Hin. discriminate.
  - intros c _ Hc. inversion Hc.
Defined.

(** C1 as stated fails: two calls that read the same clock value give two
    tasks with one id. *)
Lemma add_all_same_clock :
  Forall (λ c : list N * Z, truthy (trim c.1) = true)
         [(lit "A", 5%Z); (lit "B", 5%Z)]
  ∧ id <$> tasks (app (add_all [(lit "A", 5%Z); (lit "B", 5%Z)]
                               initial_World))
    = [lit "5"; lit "5"]
  ∧ ¬ NoDup (id <$> tasks (app (add_all [(lit "A", 5%Z); (lit "B", 5%Z)]
                                        initial_World))).
Proof.
  split; [by repeat constructor|]. split; [by vm_compute|].
  intros H. apply NoDup_cons in H as [H _]. apply H. by left.
Qed.

(** ** Deleting *)

Lemma deleteTask_and_fade_guarded (taskId : jsstring) (w : World) :
  is_Some (animations (app w) !! taskId) →
  deleteTask_and_fade taskId w =
    let updatedTasks := filter (λ item, id item ≠ taskId) (tasks (app w)) in
    mkWorld (mkApp (task (app w)) updatedTasks (editingTask (app w))
                   (delete taskId (animations (app w))))
            (Some (JSON_stringify updatedTasks)) (fading w).
Proof.
  intros [v Hv]. unfold deleteTask_and_fade, deleteTask. rewrite Hv.
  unfold fade_end. simpl.
  rewrite list_lookup_middle by done. simpl.
  rewrite take_app_length, drop_ge by (rewrite length_app; simpl; lia).
  unfold fade_callback, setAnimations, saveTasks, setTasks. simpl.
  by rewrite app_nil_r.
Qed.

Lemma deleteTask_and_fade_unguarded (taskId : jsstring) (w : World) :
  animations (app w) !! taskId = None → deleteTask_and_fade taskId w = w.
Proof.
  intros H. unfold deleteTask_and_fade, deleteTask. rewrite H.
  unfold fade_end. by rewrite lookup_ge_None_2.
Qed.

(** C2, as amended: when [taskId] has an animation value, [deleteTask] and
    the end of its fade-out, with no other event in between, remove the
    tasks whose id is [taskId], keep every other task as it is and in its
    order, write the collection to the store and drop the animation value;
    a second delete of the same [taskId] then changes nothing.  When
    [taskId] has no animation value, [deleteTask] does nothing at all: no
    task is removed and nothing is written. *)
Theorem deleteTask_removes (taskId : jsstring) (w : World) :
  (is_Some (animations (app w) !! taskId) →
   let w' := deleteTask_and_fade taskId w in
   tasks (app w') = filter (λ item, id item ≠ taskId) (tasks (app w))
   ∧ (∀ item, item ∈ tasks (app w') ↔
              item ∈ tasks (app w) ∧ id item ≠ taskId)
   ∧ tasks (app w') `sublist_of` tasks (app w)
   ∧ storage w' = Some (JSON_stringify (tasks (app w')))
   ∧ animations (app w') = delete taskId (animations (app w))
   ∧ task (app w') = task (app w)
   ∧ editingTask (app w') = editingTask (app w)
   ∧ deleteTask_and_fade taskId w' = w')
  ∧ (animations (app w) !! taskId = None →
     deleteTask_and_fade taskId w = w).
Proof.
  split; [|apply deleteTask_and_fade_unguarded].
  intros H. simpl. rewrite (deleteTask_and_fade_guarded taskId w H). simpl.
  repeat split; try done.
  - by eapply list_elem_of_filter.
  - by eapply (list_elem_of_filter (λ item, id item ≠ taskId)).
  - intros [? ?]. by apply list_elem_of_filter.
  - apply sublist_filter.
  - apply deleteTask_and_fade_unguarded. simpl. apply lookup_delete_eq.
Qed.

Lemma deleteTask_removes_witness :
  is_Some (animations (app two_tasks) !! lit "1")
  ∧ tasks (app two_tasks)
    = [mkTask (lit "1") (lit "A") true; mkTask (lit "2") (lit "B") false]
  ∧ tasks (app (deleteTask_and_fade (lit "1") two_tasks))
    = [mkTask (lit "2") (lit "B") false]
  ∧ storage (deleteTask_and_fade (lit "1") two_tasks)
    = Some (JSON_stringify [mkTask (lit "2") (lit "B") false])
  ∧ deleteTask_and_fade (lit "1")
      (deleteTask_and_fade (lit "1") two_tasks)
    = deleteTask_and_fade (lit "1") two_tasks
  ∧ animations (app initial_World) !! lit "1" = None
  ∧ deleteTask_and_fade (lit "1") initial_World = initial_World.
Proof.
  assert (Hg : is_Some (animations (app two_tasks) !! lit "1"))
    by (exists 1%Z; by vm_compute).
  destruct (proj1 (deleteTask_removes (lit "1") two_tasks) Hg)
    as (Ht & _ & _ & Hs & _ & _ & _ & Hd).
  split; [exact Hg|]. split; [reflexivity|].
  split; [exact Ht|]. split; [exact Hs|]. split; [exact Hd|].
  split; [reflexivity|].
  exact (proj2 (deleteTask_removes (lit "1") initial_World) eq_refl).
Defined.

(** In a state where every task has its animation value, so in every state
    reached without overlapping operations, the delete of a task of the
    collection goes through. *)
Lemma deleteTask_removes_present (item : Task) (w : World) :
  animated w → item ∈ tasks (app w) →
  tasks (app (deleteTask_and_fade (id item) w))
  = filter (λ x, id x ≠ id item) (tasks (app w))
  ∧ item ∉ tasks (app (deleteTask_and_fade (id item) w)).
Proof.
  intros Hw Hitem.
  rewrite (deleteTask_and_fade_guarded _ _ (Hw item Hitem)). simpl.
  split; [done|]. by intros [? ?]%list_elem_of_filter.
Qed.

(** C2 as stated fails on the guard of [deleteTask].  For an id without an
    animation value the press does nothing: from the first render nothing
    is written to the store, and after two overlapping deletes the task
    that came back stays in the collection, whatever is pressed. *)
Lemma deleteTask_guard_blocks :
  storage (deleteTask_and_fade (lit "1") initial_World) = None
  ∧ tasks (app after_overlapping_deletes) = [mkTask (lit "1") (lit "A") false]
  ∧ animations (app after_overlapping_deletes) !! lit "1" = None
  ∧ tasks (app (deleteTask_and_fade (lit "1") after_overlapping_deletes))
    = [mkTask (lit "1") (lit "A") false].
Proof. by vm_compute. Qed.

(** ** Tasks and their animation values *)

Lemma lookup_animations_of (parsedTasks : list Task) (i : jsstring) :
  is_Some (animations_of parsedTasks !! i) ↔ i ∈ id <$> parsedTasks.
Proof.
  unfold animations_of.
  assert (G : ∀ (l : list Task) (m : gmap (list N) Animated_Value),
    is_Some (foldl (λ newAnimations t,
        <[id t := new_Animated_Value (if completed t then 1 else 1)]>
          newAnimations) m l !! i)
    ↔ is_Some (m !! i) ∨ i ∈ id <$> l).
  { induction l as [|t l IH]; intros m; simpl.
    - split; [by left|]. intros [?|H]; [done|]. inversion H.
    - rewrite IH, lookup_insert_is_Some. rewrite elem_of_cons.
      destruct (decide (id t = i)); intuition auto. }
  rewrite G, lookup_empty. split; [|by right].
  intros [[? ?]|?]; done.
Qed.

(** [loadTasks] gives every restored task an animation value. *)
Lemma loadTasks_animated (w w' : World) :
  animated w → loadTasks w = Resolved w' → animated w'.
Proof.
  unfold loadTasks. intros Hw.
  destruct (truthy_opt (storage w)); [|by intros [= <-]].
  destruct (storage w ≫= JSON_parse) as [v|]; [|done].
  destruct (as_Tasks v) as [ts|]; [|by destruct (forEach_throws v)].
  intros [= <-] item Hitem. simpl in *.
  apply lookup_animations_of. by apply list_elem_of_fmap_2.
Qed.

(** As long as no two operations overlap, every task of the collection has
    an animation value, so the guard of [deleteTask] lets every delete of a
    task of the collection through. *)
Lemma perform_animated (o : operation) (w : World) :
  animated w → animated (perform o w).
Proof.
  intros Hw. destruct o as [t|now|taskId|taskId| |taskId]; simpl.
  - done.
  - unfold addTask. destruct (truthy _); [|done].
    intros item Hitem. simpl in *.
    apply lookup_insert_is_Some'.
    apply elem_of_app in Hitem as [Hitem|Hitem]; [right; by apply Hw|].
    apply list_elem_of_singleton in Hitem as ->. by left.
  - intros item Hitem. simpl in *.
    apply list_elem_of_fmap in Hitem as (x & -> & Hx).
    case_decide; simpl; by apply Hw.
  - unfold editTask. by destruct (List.find _ _).
  - unfold updateTask. destruct (_ && _); [|done].
    intros item Hitem. simpl in *.
    apply list_elem_of_fmap in Hitem as (x & -> & Hx).
    case_decide; simpl; by apply Hw.
  - destruct (animations (app w) !! taskId) as [v|] eqn:E.
    + rewrite deleteTask_and_fade_guarded by done.
      intros item [Hne Hitem]%list_elem_of_filter. simpl.
      rewrite lookup_delete_ne by done. by apply Hw.
    + by rewrite deleteTask_and_fade_unguarded.
Qed.

Lemma initial_World_animated : animated initial_World.
Proof. intros item Hitem. inversion Hitem. Qed.

Lemma sequential_animated (os : list operation) (w : World) :
  animated w → animated (foldl (λ w o, perform o w) w os).
Proof.
  revert w. induction os as [|o os IH]; intros w Hw; simpl; [done|].
  by apply IH, perform_animated.
Qed.

(** C9, on the events of [overlapping_deletes]: two tasks are added, both
    delete buttons are pressed before either fade-out has ended, and both
    fade-outs end.  The second callback filters the [tasks] array of the
    render of its press, which still holds the first task, while the
    animation value of that task is gone: the first task is in the
    collection, and in the store, without an animation value. *)
Theorem overlapping_deletes_break_animated :
  tasks (app after_overlapping_deletes) = [mkTask (lit "1") (lit "A") false]
  ∧ animations (app after_overlapping_deletes) = ∅
  ∧ storage after_overlapping_deletes
    = Some (JSON_stringify [mkTask (lit "1") (lit "A") false])
  ∧ ¬ animated after_overlapping_deletes.
Proof.
  split; [by vm_compute|]. split; [by vm_compute|]. split; [by vm_compute|].
  intros H. destruct (H (mkTask (lit "1") (lit "A") false)) as [v Hv].
  - apply list_elem_of_here.
  - vm_compute in Hv. discriminate.
Qed.

(** ** The JSON codec *)

Lemma hex_value_digit (n : N) : (n < 16)%N → hex_value (hex_digit n) = Some n.
Proof.
  intros H. unfold hex_digit, hex_value.
  destruct (N.ltb_spec n 10).
  - replace ((48 <=? 48 + n) && (48 + n <=? 57))%N with true
      by (symmetry; apply andb_true_iff; split; apply N.leb_le; lia).
    f_equal. lia.
  - replace ((48 <=? 87 + n) && (87 + n <=? 57))%N with false
      by (symmetry; apply andb_false_iff; right; apply N.leb_gt; lia).
    replace ((97 <=? 87 + n) && (87 + n <=? 102))%N with true
      by (symmetry; apply andb_true_iff; split; apply N.leb_le; lia).
    f_equal. lia.
Qed.

Lemma hex4_value_UnicodeEscape (c : N) :
  (c < 65536)%N →
  hex4_value (hex_digit (c / 4096 mod 16)) (hex_digit (c / 256 mod 16))
             (hex_digit (c / 16 mod 16)) (hex_digit (c mod 16)) = Some c.
Proof.
  intros H. unfold hex4_value.
  rewrite !hex_value_digit by (apply N.mod_lt; lia). simpl.
  f_equal.
  assert (E256 : (c / 256 = c / 16 / 16)%N) by by rewrite N.Div0.div_div.
  assert (E4096 : (c / 4096 = c / 16 / 16 / 16)%N)
    by by rewrite !N.Div0.div_div.
  assert (E0 : (c / 16 / 16 / 16 / 16 = 0)%N)
    by (rewrite !N.Div0.div_div; apply N.div_small; exact H).
  rewrite E256, E4096.
  pose proof (N.div_mod c 16) as D1.
  pose proof (N.div_mod (c / 16) 16) as D2.
  pose proof (N.div_mod (c / 16 / 16) 16) as D3.
  pose proof (N.div_mod (c / 16 / 16 / 16) 16) as D4.
  rewrite E0 in D4. lia.
Qed.

Lemma parse_chars_raw (c : N) (s : list N) :
  (c =? 34)%N = false → (c =? 92)%N = false → (c <? 32)%N = false →
  parse_chars (c :: s) = '(str, rest) ← parse_chars s; Some (c :: str, rest).
Proof. intros H1 H2 H3. simpl. by rewrite H1, H2, H3. Qed.

Lemma parse_chars_UnicodeEscape (c : N) (s : list N) :
  (c < 65536)%N →
  parse_chars (UnicodeEscape c ++ s)
  = '(str, rest) ← parse_chars s; Some (c :: str, rest).
Proof.
  intros H. unfold UnicodeEscape.
  change (parse_chars (_ ++ s))
    with (u ← hex4_value (hex_digit (c / 4096 mod 16))
                         (hex_digit (c / 256 mod 16))
                         (hex_digit (c / 16 mod 16)) (hex_digit (c mod 16));
          '(str, rest) ← parse_chars s; Some (u :: str, rest)).
  by rewrite hex4_value_UnicodeEscape.
Qed.

Lemma surrogate_lt (c : N) :
  is_leading_surrogate c = true ∨ is_trailing_surrogate c = true →
  (32 ≤ c < 65536)%N ∧ c ≠ 34%N ∧ c ≠ 92%N.
Proof.
  unfold is_leading_surrogate, is_trailing_surrogate.
  intros [[H1 H2]%andb_true_iff|[H1 H2]%andb_true_iff];
    apply N.leb_le in H1, H2; lia.
Qed.

Lemma parse_chars_surrogate (c : N) (s : list N) :
  is_leading_surrogate c = true ∨ is_trailing_surrogate c = true →
  parse_chars (c :: s) = '(str, rest) ← parse_chars s; Some (c :: str, rest).
Proof.
  intros (H1 & H2 & H3)%surrogate_lt. apply parse_chars_raw.
  - by apply N.eqb_neq.
  - by apply N.eqb_neq.
  - apply N.ltb_ge. lia.
Qed.

Lemma parse_chars_quote_unit (c : N) (s : list N) :
  is_leading_surrogate c = false →
  parse_chars (quote_unit c ++ s)
  = '(str, rest) ← parse_chars s; Some (c :: str, rest).
Proof.
  intros Hl. unfold quote_unit.
  repeat (match goal with
          | |- context [(c =? ?k)%N] =>
            destruct (N.eqb_spec c k) as [->|?]; [reflexivity|]
          end).
  rewrite Hl. simpl.
  destruct (N.ltb_spec c 32) as [Hlt|Hge]; simpl.
  - apply parse_chars_UnicodeEscape. lia.
  - destruct (is_trailing_surrogate c) eqn:Ht.
    + apply parse_chars_UnicodeEscape. apply surrogate_lt. by right.
    + apply parse_chars_raw; try (by apply N.eqb_neq). by apply N.ltb_ge.
Qed.

(** Reading back what [QuoteJSONString] prints. *)
Lemma quote_units_cons (c : N) (r : list N) :
  quote_units (c :: r)
  = if is_leading_surrogate c then
      match r with
      | d :: r' =>
        if is_trailing_surrogate d then c :: d :: quote_units r'
        else UnicodeEscape c ++ quote_units r
      | [] => UnicodeEscape c
      end
    else quote_unit c ++ quote_units r.
Proof. reflexivity. Qed.

Lemma parse_chars_quote_units (s rest : list N) :
  parse_chars (quote_units s ++ 34%N :: rest) = Some (s, rest).
Proof.
  remember (length s) as n eqn:Hn.
  revert s Hn. induction (lt_wf n) as [n _ IH]. intros s ->.
  assert (IH' : ∀ s', length s' < length s →
            parse_chars (quote_units s' ++ 34%N :: rest) = Some (s', rest))
    by (intros s' Hs'; by eapply IH).
  clear IH. destruct s as [|c r]; [reflexivity|]. rewrite quote_units_cons.
  destruct (is_leading_surrogate c) eqn:Hl.
  - destruct r as [|d r'].
    + rewrite parse_chars_UnicodeEscape by (apply surrogate_lt; by left).
      reflexivity.
    + destruct (is_trailing_surrogate d) eqn:Ht.
      * rewrite <- !app_comm_cons.
        rewrite parse_chars_surrogate by by left.
        rewrite parse_chars_surrogate by by right.
        rewrite IH' by (simpl; lia). reflexivity.
      * rewrite <- app_assoc.
        rewrite parse_chars_UnicodeEscape by (apply surrogate_lt; by left).
        rewrite IH' by (simpl; lia). reflexivity.
  - rewrite <- app_assoc. rewrite parse_chars_quote_unit by done.
    rewrite IH' by (simpl; lia). reflexivity.
Qed.

(** *** The fuel of the descent *)

Lemma skip_ws_length (s : list N) : length (skip_ws s) ≤ length s.
Proof.
  induction s as [|c s IH]; simpl; [done|].
  destruct (is_json_ws c); simpl; lia.
Qed.

Lemma parse_chars_shorter (s str r : list N) :
  parse_chars s = Some (str, r) → length r < length s.
Proof.
  remember (length s) as n eqn:Hn. revert s str r Hn.
  induction (lt_wf n) as [n _ IH]. intros s str r -> H.
  assert (IH' : ∀ s' str' r', length s' < length s →
            parse_chars s' = Some (str', r') → length r' < length s')
    by (intros s' str' r' Hs'; by eapply IH).
  clear IH. destruct s as [|c s]; [done|]. simpl in H.
  destruct (c =? 34)%N; [injection H as _ <-; simpl; lia|].
  destruct (c =? 92)%N.
  - destruct s as [|e s]; [done|].
    destruct (e =? 117)%N.
    + destruct s as [|h1 [|h2 [|h3 [|h4 s]]]]; try done.
      destruct (hex4_value h1 h2 h3 h4); [|done]. simpl in H.
      destruct (parse_chars s) as [[str' r']|] eqn:E; [|done].
      injection H as _ <-. apply IH' in E; simpl in *; lia.
    + destruct (unescape e); [|done]. simpl in H.
      destruct (parse_chars s) as [[str' r']|] eqn:E; [|done].
      injection H as _ <-. apply IH' in E; simpl in *; lia.
  - destruct (c <? 32)%N; [done|].
    destruct (parse_chars s) as [[str' r']|] eqn:E; [|done].
    injection H as _ <-. apply IH' in E; simpl in *; lia.
Qed.

Lemma strip_prefix_length (p s r : list N) :
  strip_prefix p s = Some r → length s = length p + length r.
Proof.
  revert s. induction p as [|a p IH]; intros s H; simpl in *.
  - by injection H as ->.
  - destruct s as [|b s]; [done|]. destruct (a =? b)%N; [|done].
    apply IH in H. simpl. lia.
Qed.

Lemma span_digits_length (s d r : list N) :
  span_digits s = (d, r) → length s = length d + length r.
Proof.
  revert d r. induction s as [|c s IH]; intros d r H; simpl in H.
  - by injection H as <- <-.
  - destruct (is_digit c).
    + destruct (span_digits s) as [d' r'] eqn:E. injection H as <- <-.
      specialize (IH _ _ eq_refl). simpl. lia.
    + by injection H as <- <-.
Qed.

Lemma parse_digits1_shorter (s d r : list N) :
  parse_digits1 s = Some (d, r) → length r < length s.
Proof.
  unfold parse_digits1. destruct (span_digits s) as [d' r'] eqn:E.
  apply span_digits_length in E.
  destruct d'; [done|]. intros [= <- <-]. simpl in E. lia.
Qed.

Lemma parse_number_shorter (s lexeme r : list N) :
  parse_number s = Some (lexeme, r) → length r < length s.
Proof.
  assert (Hu : ∀ s lexeme r, parse_unsigned s = Some (lexeme, r) →
                             length r < length s).
  { clear. intros s lexeme r. unfold parse_unsigned.
    destruct (parse_int_part s) as [[i r1]|] eqn:Ei; [|done]. simpl.
    destruct (parse_frac r1) as [[f r2]|] eqn:Ef; [|done]. simpl.
    destruct (parse_exp r2) as [[e r3]|] eqn:Ee; [|done]. simpl.
    intros [= <- <-].
    assert (length r1 < length s).
    { unfold parse_int_part in Ei. destruct s as [|c s]; [done|].
      destruct (c =? 48)%N; [injection Ei as <- <-; simpl; lia|].
      destruct (is_digit c); [|done].
      destruct (span_digits s) as [d r'] eqn:E.
      apply span_digits_length in E. injection Ei as <- <-. simpl. lia. }
    assert (length r2 ≤ length r1).
    { unfold parse_frac in Ef. destruct r1 as [|c t]; [by injection Ef as <- <-|].
      destruct (c =? 46)%N; [|by injection Ef as <- <-].
      destruct (parse_digits1 t) as [[d r']|] eqn:E; [|done].
      apply parse_digits1_shorter in E. injection Ef as <- <-. simpl. lia. }
    assert (length r3 ≤ length r2); [|lia].
    unfold parse_exp in Ee. destruct r2 as [|c t]; [by injection Ee as <- <-|].
    destruct ((c =? 101) || (c =? 69))%N; [|by injection Ee as <- <-].
    destruct t as [|sg t]; [done|].
    destruct ((sg =? 43) || (sg =? 45))%N.
    - destruct (parse_digits1 t) as [[d r']|] eqn:E; [|done].
      apply parse_digits1_shorter in E. injection Ee as <- <-. simpl. lia.
    - destruct (parse_digits1 (sg :: t)) as [[d r']|] eqn:E; [|done].
      apply parse_digits1_shorter in E. injection Ee as <- <-. simpl in *. lia. }
  unfold parse_number. destruct s as [|c s]; [done|].
  destruct (c =? 45)%N; [|apply Hu].
  destruct (parse_unsigned s) as [[n r']|] eqn:E; [|done].
  apply Hu in E. intros [= <- <-]. simpl. lia.
Qed.

(** A part [p] is parsed, with [lem] for what is left when it succeeds. *)
Ltac parsed p lem x r :=
  let E := fresh "E" in
  destruct p as [[x r]|] eqn:E; [apply lem in E|done]; simpl.

(** The white space before the next code unit [c] is skipped. *)
Ltac skipped s c t :=
  let H := fresh "Hws" in
  pose proof (skip_ws_length s) as H;
  destruct (skip_ws s) as [|c t]; [done|]; simpl in H.

Ltac literal_case l c t :=
  let E := fresh "E" in
  destruct (strip_prefix l (c :: t)) as [?|] eqn:E; [|done];
  apply strip_prefix_length in E; intros [= <- <-]; simpl in E; lia.

Lemma value_of_consuming e m :
  consuming e → consuming m → consuming (value_of e m).
Proof.
  intros He Hm s v r. unfold value_of. skipped s c t.
  destruct (c =? 34)%N.
  { parsed (parse_chars t) parse_chars_shorter str r'. intros [= <- <-]. lia. }
  destruct (c =? 91)%N.
  { skipped t c' t'. destruct (c' =? 93)%N; [intros [= <- <-]; lia|].
    parsed (e t) He l r'. intros [= <- <-]. lia. }
  destruct (c =? 123)%N.
  { skipped t c' t'. destruct (c' =? 125)%N; [intros [= <- <-]; lia|].
    parsed (m t) Hm l r'. intros [= <- <-]. lia. }
  destruct (c =? 116)%N; [literal_case lit_true c t|].
  destruct (c =? 102)%N; [literal_case lit_false c t|].
  destruct (c =? 110)%N; [literal_case lit_null c t|].
  parsed (parse_number (c :: t)) parse_number_shorter lexeme r'.
  intros [= <- <-]. simpl in *. lia.
Qed.

Lemma elements_of_consuming v e :
  consuming v → consuming e → consuming (elements_of v e).
Proof.
  intros Hv He s l r. unfold elements_of.
  parsed (v s) Hv x r1. skipped r1 c t.
  destruct (c =? 44)%N.
  - parsed (e t) He l' r'. intros [= <- <-]. lia.
  - destruct (c =? 93)%N; [|done]. intros [= <- <-]. lia.
Qed.

Lemma members_of_consuming v m :
  consuming v → consuming m → consuming (members_of v m).
Proof.
  intros Hv Hm s l r. unfold members_of. skipped s c t.
  destruct (c =? 34)%N; [|done].
  parsed (parse_chars t) parse_chars_shorter k r1. skipped r1 c1 r2.
  destruct (c1 =? 58)%N; [|done].
  parsed (v r2) Hv x r3. skipped r3 c2 r4.
  destruct (c2 =? 44)%N.
  - parsed (m r4) Hm l' r'. intros [= <- <-]. lia.
  - destruct (c2 =? 125)%N; [|done]. intros [= <- <-]. lia.
Qed.

Lemma parse_consuming (fuel : nat) :
  consuming (parse_value fuel) ∧ consuming (parse_elements fuel)
  ∧ consuming (parse_members fuel).
Proof.
  induction fuel as [|fuel (Hv & He & Hm)]; [by repeat split|].
  split; [|split]; simpl.
  - by apply value_of_consuming.
  - by apply elements_of_consuming.
  - by apply members_of_consuming.
Qed.

(** One level of the descent calls the parsers of the parts on strictly
    shorter input only (an element list calls the value parser on its own
    input first). *)
Lemma value_of_local e e' m m' (s : list N) :
  (∀ r, length r < length s → e r = e' r) →
  (∀ r, length r < length s → m r = m' r) →
  value_of e m s = value_of e' m' s.
Proof.
  intros He Hm. unfold value_of.
  pose proof (skip_ws_length s) as Hs.
  destruct (skip_ws s) as [|c t]; [done|]. simpl in Hs.
  rewrite (He t), (Hm t) by lia. done.
Qed.

Lemma elements_of_local v v' e e' (s : list N) :
  consuming v →
  v s = v' s →
  (∀ r, length r < length s → e r = e' r) →
  elements_of v e s = elements_of v' e' s.
Proof.
  intros Hc Hv He. unfold elements_of. rewrite <- Hv.
  destruct (v s) as [[x r1]|] eqn:E1; [|done]. simpl.
  apply Hc in E1. pose proof (skip_ws_length r1) as H1.
  destruct (skip_ws r1) as [|c t]; [done|]. simpl in H1.
  rewrite (He t) by lia. done.
Qed.

Lemma members_of_local v v' m m' (s : list N) :
  consuming v →
  (∀ r, length r < length s → v r = v' r) →
  (∀ r, length r < length s → m r = m' r) →
  members_of v m s = members_of v' m' s.
Proof.
  intros Hc Hv Hm. unfold members_of.
  pose proof (skip_ws_length s) as Hs.
  destruct (skip_ws s) as [|c t]; [done|]. simpl in Hs.
  destruct (c =? 34)%N; [|done].
  destruct (parse_chars t) as [[k r1]|] eqn:Ek; [|done]. simpl.
  apply parse_chars_shorter in Ek. pose proof (skip_ws_length r1) as H1.
  destruct (skip_ws r1) as [|c1 r2]; [done|]. simpl in H1.
  destruct (c1 =? 58)%N; [|done].
  rewrite <- (Hv r2) by lia.
  destruct (v r2) as [[x r3]|] eqn:Ev; [|done]. simpl.
  apply Hc in Ev. pose proof (skip_ws_length r3) as H3.
  destruct (skip_ws r3) as [|c2 r4]; [done|]. simpl in H3.
  rewrite (Hm r4) by lia. done.
Qed.

(** With fuel from twice the length on, the result of the descent does not
    depend on the fuel. *)
Lemma parse_fuel_settled (s : list N) (f f' : nat) :
  (2 * length s + 2 ≤ f → 2 * length s + 2 ≤ f' →
   parse_value f s = parse_value f' s)
  ∧ (2 * length s + 3 ≤ f → 2 * length s + 3 ≤ f' →
     parse_elements f s = parse_elements f' s)
  ∧ (2 * length s + 1 ≤ f → 2 * length s + 1 ≤ f' →
     parse_members f s = parse_members f' s).
Proof.
  remember (length s) as n eqn:Hn. revert s Hn f f'.
  induction (lt_wf n) as [n _ IH]. intros s -> f f'.
  assert (IH' : ∀ r g g', length r < length s →
    (2 * length r + 2 ≤ g → 2 * length r + 2 ≤ g' →
     parse_value g r = parse_value g' r)
    ∧ (2 * length r + 3 ≤ g → 2 * length r + 3 ≤ g' →
       parse_elements g r = parse_elements g' r)
    ∧ (2 * length r + 1 ≤ g → 2 * length r + 1 ≤ g' →
       parse_members g r = parse_members g' r))
    by (intros r g g' Hr; by eapply IH).
  clear IH.
  assert (Hvalue : ∀ g g', 2 * length s + 2 ≤ g → 2 * length s + 2 ≤ g' →
                           parse_value g s = parse_value g' s).
  { intros g g' Hg Hg'. destruct g as [|g], g' as [|g']; try lia. simpl.
    apply value_of_local; intros r Hr; apply (IH' r g g' Hr); lia. }
  split; [apply Hvalue|]. split.
  - intros Hg Hg'. destruct f as [|g], f' as [|g']; try lia. simpl.
    apply elements_of_local.
    + apply parse_consuming.
    + apply Hvalue; lia.
    + intros r Hr. apply (IH' r g g' Hr); lia.
  - intros Hg Hg'. destruct f as [|g], f' as [|g']; try lia. simpl.
    apply members_of_local.
    + apply parse_consuming.
    + intros r Hr. apply (IH' r g g' Hr); lia.
    + intros r Hr. apply (IH' r g g' Hr); lia.
Qed.

(** More fuel than [JSON_fuel] changes nothing: [JSON_parse] gives [None]
    on the texts that the grammar rejects and on no other. *)
Lemma parse_value_fuel (s : list N) (fuel : nat) :
  JSON_fuel s ≤ fuel → parse_value fuel s = parse_value (JSON_fuel s) s.
Proof.
  intros H. apply parse_fuel_settled; unfold JSON_fuel in *; lia.
Qed.

(** *** Reading back what [JSON.stringify] prints *)

Lemma QuoteJSONString_app (s rest : list N) :
  QuoteJSONString s ++ rest = 34%N :: quote_units s ++ 34%N :: rest.
Proof. unfold QuoteJSONString. simpl. by rewrite <- app_assoc. Qed.

Lemma parse_value_string (fuel : nat) (s rest : list N) :
  parse_value (S fuel) (QuoteJSONString s ++ rest) = Some (JString s, rest).
Proof.
  rewrite QuoteJSONString_app.
  change (parse_value (S fuel) (34%N :: ?x))
    with ('(str, r') ← parse_chars x; Some (JString str, r')).
  by rewrite parse_chars_quote_units.
Qed.

Lemma parse_value_boolean (fuel : nat) (b : bool) (rest : list N) :
  parse_value (S fuel) (stringify_boolean b ++ rest) = Some (JBool b, rest).
Proof. by destruct b. Qed.

Lemma parse_members_more (fuel : nat) (k val more : list N) (v : JSON) :
  parse_value fuel (val ++ 44%N :: more) = Some (v, 44%N :: more) →
  parse_members (S fuel) (QuoteJSONString k ++ 58%N :: val ++ 44%N :: more)
  = '(m, r) ← parse_members fuel more; Some ((k, v) :: m, r).
Proof.
  intros Hv. rewrite QuoteJSONString_app.
  change (parse_members (S fuel) ?s)
    with (members_of (parse_value fuel) (parse_members fuel) s).
  unfold members_of. simpl skip_ws. simpl N.eqb. cbn iota.
  rewrite parse_chars_quote_units. simpl. by rewrite Hv.
Qed.

Lemma parse_members_last (fuel : nat) (k val rest : list N) (v : JSON) :
  parse_value fuel (val ++ 125%N :: rest) = Some (v, 125%N :: rest) →
  parse_members (S fuel) (QuoteJSONString k ++ 58%N :: val ++ 125%N :: rest)
  = Some ([(k, v)], rest).
Proof.
  intros Hv. rewrite QuoteJSONString_app.
  change (parse_members (S fuel) ?s)
    with (members_of (parse_value fuel) (parse_members fuel) s).
  unfold members_of. simpl skip_ws. simpl N.eqb. cbn iota.
  rewrite parse_chars_quote_units. simpl. by rewrite Hv.
Qed.

Lemma parse_value_Task (fuel : nat) (t : Task) (rest : list N) :
  parse_value (5 + fuel) (stringify_Task t ++ rest) = Some (Task_JSON t, rest).
Proof.
  unfold stringify_Task.
  repeat (rewrite <- app_comm_cons || rewrite <- app_assoc).
  rewrite QuoteJSONString_app at 1.
  change (parse_value (5 + fuel) (123%N :: 34%N :: ?x))
    with ('(m, r'') ← parse_members (4 + fuel) (34%N :: x);
          Some (JObject m, r'')).
  rewrite <- QuoteJSONString_app.
  change (4 + fuel) with (S (3 + fuel)).
  rewrite (parse_members_more _ _ _ _ (JString (id t)))
    by apply parse_value_string.
  change (3 + fuel) with (S (2 + fuel)).
  rewrite (parse_members_more _ _ _ _ (JString (text t)))
    by apply parse_value_string.
  change (2 + fuel) with (S (1 + fuel)).
  rewrite (parse_members_last _ _ _ _ (JBool (completed t)))
    by apply parse_value_boolean.
  reflexivity.
Qed.

Lemma join_comma_cons (x : list N) (l : list (list N)) :
  l ≠ [] → join_comma (x :: l) = x ++ 44%N :: join_comma l.
Proof. by destruct l. Qed.

Lemma parse_elements_Tasks (fuel : nat) (ts : list Task) (rest : list N) :
  ts ≠ [] →
  parse_elements (length ts + 5 + fuel)
                 (join_comma (stringify_Task <$> ts) ++ 93%N :: rest)
  = Some (Task_JSON <$> ts, rest).
Proof.
  induction ts as [|t ts IH]; [done|]. intros _.
  change (length (t :: ts) + 5 + fuel) with (S (length ts + 5 + fuel)).
  destruct ts as [|t' ts].
  - simpl join_comma.
    change (parse_elements (S ?f) ?s)
      with (elements_of (parse_value f) (parse_elements f) s).
    unfold elements_of.
    change (length [] + 5 + fuel) with (5 + fuel).
    by rewrite parse_value_Task.
  - rewrite fmap_cons, join_comma_cons by done. rewrite <- app_assoc.
    rewrite <- app_comm_cons.
    change (parse_elements (S ?f) ?s)
      with (elements_of (parse_value f) (parse_elements f) s).
    unfold elements_of.
    replace (length (t' :: ts) + 5 + fuel) with (5 + (fuel + length (t' :: ts)))
      at 1 by lia.
    rewrite parse_value_Task.
    specialize (IH ltac:(done)).
    set (f := length (t' :: ts) + 5 + fuel) in *.
    set (more := join_comma (stringify_Task <$> t' :: ts)) in *.
    cbn [mbind option_bind skip_ws is_json_ws N.eqb Pos.eqb orb].
    by rewrite IH.
Qed.

Lemma as_Task_JSON (t : Task) : as_Task (Task_JSON t) = Some t.
Proof. unfold as_Task, Task_JSON. rewrite decide_True by done. by destruct t. Qed.

Lemma parse_value_Tasks (fuel : nat) (ts : list Task) (rest : list N) :
  parse_value (length ts + 6 + fuel) (JSON_stringify ts ++ rest)
  = Some (JArray (Task_JSON <$> ts), rest).
Proof.
  unfold JSON_stringify. rewrite <- app_comm_cons, <- app_assoc.
  destruct ts as [|t ts]; [reflexivity|].
  replace (length (t :: ts) + 6 + fuel)
    with (S (length (t :: ts) + 5 + fuel)) by lia.
  pose proof (parse_elements_Tasks fuel (t :: ts) rest ltac:(done)) as H.
  assert (Hhead : ∃ x, join_comma (stringify_Task <$> t :: ts)
                       = 123%N :: x).
  { rewrite fmap_cons. destruct ts; simpl; eauto. }
  destruct Hhead as [x Hx].
  set (f := length (t :: ts) + 5 + fuel) in *.
  rewrite Hx in *. rewrite <- !app_comm_cons in *.
  change (parse_value (S f) (91%N :: 123%N :: ?s))
    with ('(l, r'') ← parse_elements f (123%N :: s); Some (JArray l, r'')).
  change ([] ++ rest) with rest. by rewrite H.
Qed.

(** [JSON.parse(JSON.stringify(tasks))] is [tasks] again. *)
Lemma JSON_parse_stringify (ts : list Task) :
  JSON_parse (JSON_stringify ts) = Some (JArray (Task_JSON <$> ts))
  ∧ as_Tasks (JArray (Task_JSON <$> ts)) = Some ts.
Proof.
  split.
  - unfold JSON_parse.
    assert (Hlen : length ts + 2 ≤ length (JSON_stringify ts)).
    { unfold JSON_stringify. simpl. rewrite length_app. simpl.
      assert (length ts ≤ length (join_comma (stringify_Task <$> ts))); [|lia].
      induction ts as [|t ts IH]; [done|]. rewrite fmap_cons.
      destruct ts as [|t' ts]; [simpl; lia|].
      rewrite join_comma_cons by done. rewrite length_app. simpl in *. lia. }
    replace (JSON_fuel (JSON_stringify ts))
      with (length ts + 6 + (JSON_fuel (JSON_stringify ts) - length ts - 6))
      by (unfold JSON_fuel; lia).
    rewrite <- (app_nil_r (JSON_stringify ts)) at 2.
    by rewrite parse_value_Tasks.
  - simpl. apply mapM_fmap_Some. apply as_Task_JSON.
Qed.

(** ** Saving and loading *)

(** C7: [loadTasks] after [saveTasks] of a collection resolves, with that
    collection in [tasks]: the same tasks in the same order with the same
    [id], [text] and [completed]. *)
Theorem loadTasks_after_saveTasks (ts : list Task) (w : World) :
  JSON_parse (JSON_stringify ts) ≫= as_Tasks = Some ts
  ∧ ∃ w', loadTasks (saveTasks ts w) = Resolved w'
          ∧ tasks (app w') = ts
          ∧ storage w' = Some (JSON_stringify ts)
          ∧ task (app w') = task (app w)
          ∧ editingTask (app w') = editingTask (app w)
          ∧ animated w'.
Proof.
  destruct (JSON_parse_stringify ts) as [Hp Ha].
  split; [by rewrite Hp|].
  exists (setAnimations (λ _, animations_of ts) (setTasks ts (saveTasks ts w))).
  repeat split; try done.
  - unfold loadTasks. simpl. rewrite Hp, Ha. by destruct ts.
  - intros item Hitem. simpl in *.
    apply lookup_animations_of. by apply list_elem_of_fmap_2.
Qed.

(** C8, as amended: with nothing stored, or with the empty string stored,
    [loadTasks] resolves and changes nothing, so the collection of the
    first render stays empty; on a stored text that is not empty and that
    [JSON.parse] rejects, the promise is rejected with its [SyntaxError]
    before any setter has run, and the state is the one before the call.
    On a stored text that is not empty and parses to a value that is no
    array of [id], [text], [completed] records there is no such error:
    [setTasks] is called with the value as it is, after which the promise
    resolves when the value is an array without [null] in it and is
    rejected with a [TypeError] otherwise. *)
Theorem loadTasks_absent_or_malformed (w : World) :
  (storage w = None ∨ storage w = Some [] → loadTasks w = Resolved w)
  ∧ (∀ s, storage w = Some s → s ≠ [] → JSON_parse s = None →
          loadTasks w = Rejected_SyntaxError w)
  ∧ (∀ s v, storage w = Some s → s ≠ [] → JSON_parse s = Some v →
            as_Tasks v = None →
            loadTasks w ≠ Rejected_SyntaxError w
            ∧ loadTasks w = if forEach_throws v then Rejected_TypeError v
                            else Stored_unchecked v)
  ∧ loadTasks initial_World = Resolved initial_World
  ∧ tasks (app initial_World) = [].
Proof.
  split; [|split; [|split; [|done]]].
  - unfold loadTasks. by intros [-> | ->].
  - intros s Hs Hne Hp. unfold loadTasks. rewrite Hs. simpl.
    apply truthy_true in Hne. by rewrite Hne, Hp.
  - intros s v Hs Hne Hp Ha. unfold loadTasks. rewrite Hs. simpl.
    apply truthy_true in Hne. rewrite Hne, Hp, Ha.
    by destruct (forEach_throws v).
Qed.

Lemma loadTasks_absent_or_malformed_witness :
  storage stored_broken = Some (lit "[{")
  ∧ JSON_parse (lit "[{") = None
  ∧ loadTasks stored_broken = Rejected_SyntaxError stored_broken
  ∧ loadTasks stored_empty_string = Resolved stored_empty_string
  ∧ loadTasks stored_null = Rejected_TypeError JNull
  ∧ loadTasks stored_null_array = Rejected_TypeError (JArray [JNull])
  ∧ loadTasks stored_number_array
    = Stored_unchecked (JArray [JNumber (lit "1")]).
Proof.
  assert (Hne : lit "[{" ≠ []) by discriminate.
  assert (Hp : JSON_parse (lit "[{") = None) by reflexivity.
  assert (Hn1 : lit "null" ≠ []) by discriminate.
  assert (Hn2 : lit "[null]" ≠ []) by discriminate.
  assert (Hn3 : lit "[1]" ≠ []) by discriminate.
  split; [reflexivity|]. split; [exact Hp|]. split; [|split; [|split; [|split]]].
  - exact (proj1 (proj2 (loadTasks_absent_or_malformed stored_broken))
             (lit "[{") eq_refl Hne Hp).
  - exact (proj1 (loadTasks_absent_or_malformed stored_empty_string)
             (or_intror eq_refl)).
  - exact (proj2 (proj1 (proj2 (proj2
             (loadTasks_absent_or_malformed stored_null)))
             (lit "null") JNull eq_refl Hn1 eq_refl eq_refl)).
  - exact (proj2 (proj1 (proj2 (proj2
             (loadTasks_absent_or_malformed stored_null_array)))
             (lit "[null]") (JArray [JNull]) eq_refl Hn2 eq_refl eq_refl)).
  - exact (proj2 (proj1 (proj2 (proj2
             (loadTasks_absent_or_malformed stored_number_array)))
             (lit "[1]") (JArray [JNumber (lit "1")])
             eq_refl Hn3 eq_refl eq_refl)).
Defined.

(** C8 as stated fails on the test [if (savedTasks)]: the empty string is a
    stored text that [JSON.parse] rejects, yet [loadTasks] never parses it
    and resolves.  A text that parses to something else than tasks is not
    rejected either: the value goes into [tasks] as it is. *)
Lemma loadTasks_empty_string_resolves :
  storage stored_empty_string = Some []
  ∧ JSON_parse [] = None
  ∧ loadTasks stored_empty_string = Resolved stored_empty_string
  ∧ loadTasks stored_number_array
    = Stored_unchecked (JArray [JNumber (lit "1")]).
Proof. by vm_compute. Qed.

(** * Further properties of the handlers *)

(** ** The shape of a step *)

Lemma updateTask_cases (w : World) :
  updateTask w = w
  ∨ ∃ taskId, taskId ≠ [] ∧ editingTask (app w) = Some taskId
              ∧ truthy (trim (task (app w))) = true.
Proof.
  destruct (truthy (trim (task (app w)))) eqn:Ht;
    [|left; by apply updateTask_reject].
  destruct (editingTask (app w)) as [[|c t]|] eqn:He.
  - left. unfold updateTask. by rewrite Ht, He.
  - right. by exists (c :: t).
  - left. unfold updateTask. by rewrite Ht, He.
Qed.

Lemma fade_end_cases (k : nat) (w : World) :
  (fading w !! k = None ∧ fade_end k w = w)
  ∨ ∃ c, fading w !! k = Some c
         ∧ fade_end k w
           = mkWorld
               (mkApp (task (app w))
                      (filter (λ item, id item ≠ closure_taskId c)
                              (closure_tasks c))
                      (editingTask (app w))
                      (delete (closure_taskId c) (animations (app w))))
               (Some (JSON_stringify
                        (filter (λ item, id item ≠ closure_taskId c)
                                (closure_tasks c))))
               (take k (fading w) ++ drop (S k) (fading w)).
Proof.
  unfold fade_end. destruct (fading w !! k) as [c|] eqn:E; [|by left].
  right. by exists c.
Qed.

Lemma editTask_frame (taskId : list N) (w : World) :
  tasks (app (editTask taskId w)) = tasks (app w)
  ∧ storage (editTask taskId w) = storage w
  ∧ animations (app (editTask taskId w)) = animations (app w)
  ∧ fading (editTask taskId w) = fading w.
Proof. unfold editTask. by destruct (List.find _ _). Qed.

(** What an event leaves in [tasks]. *)
Lemma step_effect (e : event) (w : World) :
  effect w e (tasks (app (step e w))).
Proof.
  destruct e as [t|now|taskId|taskId| |taskId|k]; simpl.
  - apply effect_none.
  - destruct (truthy (trim (task (app w)))) eqn:Ht.
    + rewrite addTask_accept by done. by eapply effect_add.
    + rewrite addTask_reject by done. apply effect_none.
  - apply effect_toggle.
  - rewrite (proj1 (editTask_frame taskId w)). apply effect_none.
  - destruct (updateTask_cases w) as [->|(taskId & Hne & He & Ht)];
      [apply effect_none|].
    rewrite (updateTask_accept taskId w Ht He Hne). by apply effect_update.
  - unfold deleteTask. destruct (_ !! _); simpl; apply effect_none.
  - destruct (fade_end_cases k w) as [[_ ->]|(c & Hc & ->)];
      [apply effect_none|].
    apply effect_fade. by eapply list_elem_of_lookup_2.
Qed.

(** A fade-out that runs after an event ran before it, or captured the
    collection of the state the event found. *)
Lemma step_fading (e : event) (w : World) (c : fade_closure) :
  c ∈ fading (step e w) → c ∈ fading w ∨ closure_tasks c = tasks (app w).
Proof.
  destruct e as [t|now|taskId|taskId| |taskId|k]; simpl.
  - by left.
  - unfold addTask. destruct (truthy _); by left.
  - by left.
  - rewrite (proj2 (proj2 (proj2 (editTask_frame taskId w)))). by left.
  - destruct (updateTask_cases w) as [->|(taskId & Hne & He & Ht)];
      [by left|].
    rewrite (updateTask_accept taskId w Ht He Hne). by left.
  - unfold deleteTask. destruct (_ !! _); [|by left]. simpl.
    intros [?|Hc%list_elem_of_singleton]%elem_of_app;
      [by left|right; by subst].
  - destruct (fade_end_cases k w) as [[_ ->]|(c' & Hc & ->)]; [by left|].
    simpl. intros [H|H]%elem_of_app; left.
    + by apply (subseteq_take k).
    + by apply (subseteq_drop (S k)).
Qed.

(** A property of collections that every effect of an event keeps is kept
    by the event, for the collection and for the captured ones. *)
Lemma everywhere_step (P : list Task → Prop) (e : event) (w : World) :
  everywhere P w → (∀ l, effect w e l → P l) → everywhere P (step e w).
Proof.
  intros [Ht Hc] HP. split; [apply HP, step_effect|].
  apply Forall_forall. intros c [Hin| ->]%step_fading.
  - by eapply Forall_forall in Hc.
  - done.
Qed.

Lemma everywhere_run (P : list Task → Prop) (es : list event) (w : World) :
  (∀ e w, e ∈ es → everywhere P w → ∀ l, effect w e l → P l) →
  everywhere P w → everywhere P (run es w).
Proof.
  revert w. induction es as [|e es IH]; intros w HP Hw; [done|].
  apply IH.
  - intros e' w' He'. apply HP. by right.
  - apply everywhere_step; [done|]. apply HP; [by left|done].
Qed.

(** ** What every run keeps *)

Lemma fmap_keeps_ids (f : Task → Task) (l : list Task) :
  (∀ item, id (f item) = id item) → id <$> (f <$> l) = id <$> l.
Proof.
  intros H. rewrite <- list_fmap_compose. apply list_fmap_ext.
  intros _ item _. apply H.
Qed.

Lemma everywhere_mono (P Q : list Task → Prop) (w : World) :
  (∀ l, P l → Q l) → everywhere P w → everywhere Q w.
Proof.
  intros H [Ht Hc]. split; [by apply H|].
  eapply Forall_impl; [done|]. intros c. apply H.
Qed.

Lemma Forall_filter_keep {A} (P Q : A → Prop) `{∀ x, Decision (Q x)}
    (l : list A) :
  Forall P l → Forall P (filter Q l).
Proof.
  rewrite !Forall_forall. intros HP x [_ Hx]%list_elem_of_filter. by apply HP.
Qed.

(** X3: no event puts a blank text into the collection.  Once every task
    of the collection, and of the collections captured by the running
    fade-outs, has a text with a code unit that is not white space, this
    stays so after every run of events. *)
Theorem run_keeps_nonblank (es : list event) (w : World) :
  everywhere (Forall nonblank) w → everywhere (Forall nonblank) (run es w).
Proof.
  apply everywhere_run. intros e w' _ [Ht Hc] l Hl.
  destruct Hl as [|now _ Hnow|taskId|taskId Htxt|c Hin].
  - done.
  - apply Forall_app. split; [done|]. by repeat constructor.
  - apply Forall_fmap. eapply Forall_impl; [done|].
    intros item Hitem. simpl. unfold nonblank. by case_decide.
  - apply Forall_fmap. eapply Forall_impl; [done|].
    intros item Hitem. simpl. unfold nonblank. by case_decide.
  - eapply Forall_forall in Hc; [|done].
    by apply Forall_filter_keep.
Qed.

Lemma run_keeps_nonblank_witness :
  everywhere (Forall nonblank) initial_World
  ∧ Forall nonblank (tasks (app after_overlapping_deletes)).
Proof.
  assert (H : everywhere (Forall nonblank) initial_World)
    by (split; constructor).
  split; [exact H|].
  exact (proj1 (run_keeps_nonblank overlapping_deletes initial_World H)).
Defined.

(** X8: only an add can bring a second task with an id that the collection
    holds already.  Ids that are pairwise distinct, in the collection and
    in the collections captured by the running fade-outs, stay so under
    every event, an add included when its clock reading does not print as
    an id of the collection. *)
Theorem step_keeps_ids_distinct (e : event) (w : World) :
  everywhere (λ l, NoDup (id <$> l)) w →
  (∀ now, e = Press_add now →
          Date_now_toString now ∉ id <$> tasks (app w)) →
  everywhere (λ l, NoDup (id <$> l)) (step e w).
Proof.
  intros Hw Hfresh. apply everywhere_step; [done|].
  destruct Hw as [Ht Hc]. intros l Hl.
  destruct Hl as [|now Hnow _|taskId|taskId Htxt|c Hin].
  - done.
  - rewrite fmap_app. apply NoDup_app. split; [done|].
    split; [|apply NoDup_singleton].
    intros i Hi Hi'%list_elem_of_singleton. subst i.
    by apply (Hfresh now).
  - rewrite fmap_keeps_ids; [done|]. intros item. by case_decide.
  - rewrite fmap_keeps_ids; [done|]. intros item. by case_decide.
  - eapply Forall_forall in Hc; [|done].
    eapply sublist_NoDup; [done|]. apply fmap_sublist, sublist_filter.
Qed.

Lemma step_keeps_ids_distinct_witness :
  NoDup (id <$> tasks (app two_tasks))
  ∧ NoDup (id <$> tasks (app (step (Press_add 3) editing_first))).
Proof.
  assert (Hd : NoDup (id <$> tasks (app editing_first))).
  { apply NoDup_cons. split; [|apply NoDup_singleton].
    intros Hin%list_elem_of_singleton. discriminate. }
  assert (Hw : everywhere (λ l, NoDup (id <$> l)) editing_first)
    by (split; [exact Hd|constructor]).
  assert (Hfresh : ∀ now, Press_add 3 = Press_add now →
            Date_now_toString now ∉ id <$> tasks (app editing_first)).
  { intros now [= <-] Hin.
    apply elem_of_cons in Hin as [Hin|Hin%list_elem_of_singleton];
      discriminate. }
  split; [exact Hd|].
  exact (proj1 (step_keeps_ids_distinct (Press_add 3) editing_first
                  Hw Hfresh)).
Defined.

Lemma added_ids_app (es es' : list event) :
  added_ids (es ++ es') = added_ids es ++ added_ids es'.
Proof.
  induction es as [|e es IH]; [done|]. destruct e; simpl; by rewrite ?IH.
Qed.

Lemma run_in_order (es : list event) (w : World) (base : list (list N)) :
  everywhere (λ l, id <$> l `sublist_of` base) w →
  everywhere (λ l, id <$> l `sublist_of` base ++ added_ids es) (run es w).
Proof.
  revert w base. induction es as [|e es IH]; intros w base Hw.
  - simpl. by rewrite app_nil_r.
  - change (e :: es) with ([e] ++ es). rewrite added_ids_app, app_assoc.
    change (run ([e] ++ es) w) with (run es (step e w)). apply IH.
    apply everywhere_step.
    { eapply everywhere_mono; [|done]. intros l Hl.
      by apply sublist_inserts_r. }
    destruct Hw as [Ht Hc]. intros l Hl.
    destruct Hl as [|now Hnow _|taskId|taskId Htxt|c Hin].
    + by apply sublist_inserts_r.
    + subst e. rewrite fmap_app. simpl. by apply sublist_app.
    + rewrite fmap_keeps_ids; [|intros item; by case_decide].
      by apply sublist_inserts_r.
    + rewrite fmap_keeps_ids; [|intros item; by case_decide].
      by apply sublist_inserts_r.
    + eapply Forall_forall in Hc; [|done]. apply sublist_inserts_r.
      etrans; [|done]. apply fmap_sublist, sublist_filter.
Qed.

(** X9: the collection is kept in the order of the adds.  After every run
    from the first render, overlapping fade-outs included, the ids of the
    collection are a subsequence of the ids that the add presses of the
    run printed, in the order of the presses: no event moves a task
    before an older one. *)
Theorem run_ids_in_order (es : list event) :
  id <$> tasks (app (run es initial_World)) `sublist_of` added_ids es.
Proof.
  apply (run_in_order es initial_World []). split; [done|constructor].
Qed.

(** ** The store and the restart *)



Lemma animations_of_opaque (ts : list Task) (i : list N) :
  i ∈ id <$> ts → animations_of ts !! i = Some (new_Animated_Value 1).
Proof.
  intros Hi. destruct (proj2 (lookup_animations_of ts i) Hi) as [v Hv].
  rewrite Hv. f_equal. revert Hv. unfold animations_of.
  assert (G : ∀ (l : list Task) (m : gmap (list N) Animated_Value),
    (∀ v, m !! i = Some v → v = 1%Z) →
    ∀ v, foldl (λ newAnimations t,
        <[id t := new_Animated_Value (if completed t then 1 else 1)]>
          newAnimations) m l !! i = Some v → v = 1%Z).
  { induction l as [|t l IH]; intros m Hm v'; simpl; [apply Hm|].
    apply IH. intros v''. destruct (decide (id t = i)) as [<-|Hne].
    - rewrite lookup_insert_eq. intros [= <-].
      unfold new_Animated_Value. by destruct (completed t).
    - rewrite lookup_insert_ne by done. apply Hm. }
  apply G. intros v'. by rewrite lookup_empty.
Qed.




(** ** Between the press and the end of a fade-out *)

Lemma step_fading_grows (e : event) (w : World) :
  is_fade_end e = false → ∃ l, fading (step e w) = fading w ++ l.
Proof.
  destruct e as [t|now|taskId|taskId| |taskId|k]; simpl; intros He;
    try done.
  - exists []. by rewrite app_nil_r.
  - exists []. unfold addTask. destruct (truthy _); simpl; by rewrite app_nil_r.
  - exists []. by rewrite app_nil_r.
  - exists []. rewrite (proj2 (proj2 (proj2 (editTask_frame taskId w)))).
    by rewrite app_nil_r.
  - exists []. rewrite app_nil_r.
    destruct (updateTask_cases w) as [->|(taskId & Hne & Hed & Ht)]; [done|].
    by rewrite (updateTask_accept taskId w Ht Hed Hne).
  - unfold deleteTask. destruct (_ !! _); simpl; [by eexists|].
    exists []. by rewrite app_nil_r.
Qed.

Lemma run_fading_grows (es : list event) (w : World) :
  Forall (λ e, is_fade_end e = false) es →
  ∃ l, fading (run es w) = fading w ++ l.
Proof.
  intros H. revert w. induction H as [|e es He _ IH]; intros w; simpl.
  - exists []. by rewrite app_nil_r.
  - destruct (step_fading_grows e w He) as [l Hl].
    destruct (IH (step e w)) as [l' Hl']. exists (l ++ l').
    unfold run in *. by rewrite Hl', Hl, app_assoc.
Qed.

(** X5: the end of a fade-out puts back the collection of its press.
    Whatever is typed and pressed between the press on delete and the end
    of its fade-out, the collection and the store after the fade-out are
    those of the press without the deleted tasks: the tasks added, the
    toggles and the new texts of the meantime are gone. *)
Theorem fade_end_discards_changes
    (taskId : list N) (es : list event) (w : World) :
  is_Some (animations (app w) !! taskId) →
  Forall (λ e, is_fade_end e = false) es →
  let w' := fade_end (length (fading w)) (run es (deleteTask taskId w)) in
  tasks (app w') = filter (λ item, id item ≠ taskId) (tasks (app w))
  ∧ storage w' = Some (JSON_stringify
                         (filter (λ item, id item ≠ taskId) (tasks (app w)))).
Proof.
  intros [v Hv] Hes. simpl.
  destruct (run_fading_grows es (deleteTask taskId w) Hes) as [l Hl].
  unfold deleteTask in *. rewrite Hv in *. simpl in Hl.
  destruct (fade_end_cases (length (fading w))
              (run es (mkWorld (app w) (storage w)
                         (fading w ++ [mkClosure taskId (tasks (app w))]))))
    as [[Hn _]|(c & Hc & ->)].
  - rewrite Hl, <- app_assoc in Hn. simpl in Hn.
    by rewrite list_lookup_middle in Hn.
  - rewrite Hl, <- app_assoc in Hc. simpl in Hc.
    rewrite list_lookup_middle in Hc by done. by injection Hc as <-.
Qed.

Lemma fade_end_discards_changes_witness :
  tasks (app two_tasks)
  = [mkTask (lit "1") (lit "A") true; mkTask (lit "2") (lit "B") false]
  ∧ tasks (app (run [Type_text (lit "C"); Press_add 3;
                     Press_toggle (lit "1")]
                    (deleteTask (lit "2") two_tasks)))
    = [mkTask (lit "1") (lit "A") false; mkTask (lit "2") (lit "B") false;
       mkTask (lit "3") (lit "C") false]
  ∧ tasks (app (fade_end 0
                  (run [Type_text (lit "C"); Press_add 3;
                        Press_toggle (lit "1")]
                       (deleteTask (lit "2") two_tasks))))
    = [mkTask (lit "1") (lit "A") true].
Proof.
  assert (Hg : is_Some (animations (app two_tasks) !! lit "2"))
    by (exists 1%Z; by vm_compute).
  assert (Hes : Forall (λ e, is_fade_end e = false)
                  [Type_text (lit "C"); Press_add 3; Press_toggle (lit "1")])
    by (repeat constructor).
  split; [reflexivity|]. split; [reflexivity|].
  exact (proj1 (fade_end_discards_changes (lit "2") _ two_tasks Hg Hes)).
Defined.

(** ** The edit mode *)

(** X6: there is no way out of an edit but the commit.  When [editingTask]
    holds a target, the only event after which it is [null] is the press
    on the confirm button with a non-blank text and a non-empty target: no
    typing, add, toggle, press on edit or delete, and no end of a fade-out
    ends the edit, not even the deletion of the task under edit. *)
Theorem editing_ends_only_by_update (e : event) (w : World) (t : list N) :
  editingTask (app w) = Some t →
  editingTask (app (step e w)) = None →
  e = Press_update ∧ t ≠ [] ∧ truthy (trim (task (app w))) = true.
Proof.
  intros Hed. destruct e as [x|now|taskId|taskId| |taskId|k]; simpl.
  - by rewrite Hed.
  - unfold addTask. destruct (truthy _); simpl; by rewrite Hed.
  - by rewrite Hed.
  - unfold editTask. destruct (List.find _ _); simpl; [done|by rewrite Hed].
  - destruct (updateTask_cases w) as [->|(taskId & Hne & He & Ht)];
      [by rewrite Hed|].
    intros _. rewrite Hed in He. by injection He as ->.
  - unfold deleteTask. destruct (_ !! _); simpl; by rewrite Hed.
  - destruct (fade_end_cases k w) as [[_ ->]|(c & Hc & ->)]; simpl;
      by rewrite Hed.
Qed.

Lemma editing_ends_only_by_update_witness :
  editingTask (app editing_first) = Some (lit "1")
  ∧ editingTask (app (step Press_update editing_first)) = None
  ∧ editingTask (app (step (Press_delete (lit "1")) editing_first))
    = Some (lit "1")
  ∧ lit "1" ≠ [].
Proof.
  split; [reflexivity|]. split; [reflexivity|]. split; [reflexivity|].
  exact (proj1 (proj2 (editing_ends_only_by_update Press_update
                         editing_first (lit "1") eq_refl eq_refl))).
Defined.

(** ** The render *)

Lemma perform_opaque (o : operation) (w : World) :
  opaque w → opaque (perform o w).
Proof.
  intros Hw. destruct o as [t|now|taskId|taskId| |taskId]; simpl.
  - done.
  - unfold addTask. destruct (truthy _); [|done].
    intros item Hitem. simpl in *.
    apply elem_of_app in Hitem as [Hitem|Hitem].
    + destruct (decide (Date_now_toString now = id item)) as [->|Hne].
      * by rewrite lookup_insert_eq.
      * rewrite lookup_insert_ne by done. by apply Hw.
    + apply list_elem_of_singleton in Hitem as ->. simpl.
      by rewrite lookup_insert_eq.
  - intros item Hitem. simpl in *.
    apply list_elem_of_fmap in Hitem as (x & -> & Hx).
    case_decide; simpl; by apply Hw.
  - unfold editTask. by destruct (List.find _ _).
  - unfold updateTask. destruct (_ && _); [|done].
    intros item Hitem. simpl in *.
    apply list_elem_of_fmap in Hitem as (x & -> & Hx).
    case_decide; simpl; by apply Hw.
  - destruct (animations (app w) !! taskId) as [v|] eqn:E.
    + rewrite deleteTask_and_fade_guarded by done.
      intros item [Hne Hitem]%list_elem_of_filter. simpl.
      rewrite lookup_delete_ne by done. by apply Hw.
    + by rewrite deleteTask_and_fade_unguarded.
Qed.

Lemma mount_opaque (stored : option (list N)) (w : World) :
  mount stored = Resolved w → opaque w.
Proof.
  unfold mount, loadTasks. simpl.
  destruct (truthy_opt stored).
  - destruct (stored ≫= JSON_parse) as [v|]; [|done].
    destruct (as_Tasks v) as [ts|]; [|by destruct (forEach_throws v)].
    intros [= <-] item Hitem. simpl in *.
    apply animations_of_opaque. by apply list_elem_of_fmap_2.
  - intros [= <-] item Hitem. inversion Hitem.
Qed.

(** X7: as long as no two operations overlap, no task is drawn with the
    fallback opacity.  From the start of the app, on whatever collection
    the store held, and after any sequence of operations in which every
    delete ends its fade-out before the next one begins, every task of the
    collection has its own entry in [animations], at opacity 1, and
    [renderItem] takes that one, not [new Animated.Value(0)]. *)
Theorem sequential_render
    (stored : option (list N)) (os : list operation) (w : World) :
  mount stored = Resolved w →
  ∀ item, item ∈ tasks (app (perform_all os w)) →
    animations (app (perform_all os w)) !! id item
    = Some (new_Animated_Value 1)
    ∧ fadeAnim (perform_all os w) item = new_Animated_Value 1.
Proof.
  intros Hw%mount_opaque.
  assert (H : opaque (perform_all os w)).
  { revert w Hw. induction os as [|o os IH]; intros w Hw; [done|].
    by apply IH, perform_opaque. }
  intros item Hitem. unfold fadeAnim. by rewrite (H item Hitem).
Qed.

Lemma sequential_render_witness :
  mount None = Resolved initial_World
  ∧ mkTask (lit "2") (lit "B") false
    ∈ tasks (app (perform_all [Op_type (lit "A"); Op_add 1;
                               Op_type (lit "B"); Op_add 2;
                               Op_delete (lit "1")] initial_World))
  ∧ fadeAnim (perform_all [Op_type (lit "A"); Op_add 1;
                           Op_type (lit "B"); Op_add 2;
                           Op_delete (lit "1")] initial_World)
             (mkTask (lit "2") (lit "B") false)
    = new_Animated_Value 1
  ∧ fadeAnim after_overlapping_deletes (mkTask (lit "1") (lit "A") false)
    = new_Animated_Value 0.
Proof.
  assert (Hin : mkTask (lit "2") (lit "B") false
                ∈ tasks (app (perform_all [Op_type (lit "A"); Op_add 1;
                                           Op_type (lit "B"); Op_add 2;
                                           Op_delete (lit "1")]
                                          initial_World)))
    by apply list_elem_of_here.
  split; [reflexivity|]. split; [exact Hin|]. split; [|by vm_compute].
  exact (proj2 (sequential_render None _ initial_World eq_refl _ Hin)).
Defined.

(** ** Beginning and committing an edit *)

Lemma find_first_match (f : Task → bool) (pre post : list Task)
    (item : Task) :
  (∀ x, x ∈ pre → f x = false) → f item = true →
  List.find f (pre ++ item :: post) = Some item.
Proof.
  intros Hpre Hitem. induction pre as [|x pre IH]; simpl.
  - by rewrite Hitem.
  - rewrite (Hpre x) by apply list_elem_of_here.
    apply IH. intros y Hy. apply Hpre. by apply list_elem_of_further.
Qed.

Lemma find_no_match (f : Task → bool) (l : list Task) :
  (∀ x, x ∈ l → f x = false) → List.find f l = None.
Proof.
  intros H. induction l as [|x l IH]; simpl; [done|].
  rewrite (H x) by apply list_elem_of_here.
  apply IH. intros y Hy. apply H. by apply list_elem_of_further.
Qed.

(** X1: [editTask] takes the first task with the id.  When no task of the
    collection has the id, the press changes nothing at all; otherwise the
    text input holds the text of the first such task and [editingTask]
    holds the id, while the collection, the store and the animation values
    stay as they are. *)
Theorem editTask_first_match (taskId : list N) (w : World) :
  ((∀ item, item ∈ tasks (app w) → id item ≠ taskId) →
   editTask taskId w = w)
  ∧ (∀ pre item post,
       tasks (app w) = pre ++ item :: post →
       (∀ x, x ∈ pre → id x ≠ taskId) → id item = taskId →
       task (app (editTask taskId w)) = text item
       ∧ editingTask (app (editTask taskId w)) = Some taskId)
  ∧ tasks (app (editTask taskId w)) = tasks (app w)
  ∧ storage (editTask taskId w) = storage w
  ∧ animations (app (editTask taskId w)) = animations (app w).
Proof.
  split; [|split].
  - intros H. unfold editTask. rewrite find_no_match; [done|].
    intros x Hx. apply bool_decide_eq_false. by apply H.
  - intros pre item post Ht Hpre Hitem. unfold editTask.
    rewrite Ht, (find_first_match _ pre post item); [done| |].
    + intros x Hx. apply bool_decide_eq_false. by apply Hpre.
    + by apply bool_decide_eq_true.
  - destruct (editTask_frame taskId w) as (? & ? & ? & _). done.
Qed.

Lemma editTask_first_match_witness :
  task (app (editTask (lit "2") two_tasks)) = lit "B"
  ∧ editingTask (app (editTask (lit "2") two_tasks)) = Some (lit "2")
  ∧ editTask (lit "7") two_tasks = two_tasks.
Proof.
  destruct (editTask_first_match (lit "2") two_tasks) as (_ & H & _).
  destruct (H [mkTask (lit "1") (lit "A") true]
              (mkTask (lit "2") (lit "B") false) [] eq_refl) as [H1 H2].
  { intros x Hx%list_elem_of_singleton. by subst. }
  { reflexivity. }
  split; [exact H1|]. split; [exact H2|].
  apply (proj1 (editTask_first_match (lit "7") two_tasks)).
  intros item Hitem.
  apply elem_of_cons in Hitem as [->|Hitem%list_elem_of_singleton];
    [|subst]; discriminate.
Defined.

Lemma NoDup_fmap_inj_on {A B} (f : A → B) (l : list A) (x y : A) :
  NoDup (f <$> l) → x ∈ l → y ∈ l → f x = f y → x = y.
Proof.
  intros Hnd [i Hi]%list_elem_of_lookup [j Hj]%list_elem_of_lookup Hf.
  assert (i = j).
  { eapply NoDup_lookup; [done| |].
    - rewrite list_lookup_fmap, Hi. done.
    - rewrite list_lookup_fmap, Hj. simpl. by rewrite Hf. }
  subst. congruence.
Qed.

(** X2: an edit that is committed as it began changes no task.  With
    pairwise distinct ids, the press on edit for a task with a non-empty
    id and a non-blank text, followed by the press on the confirm button
    with nothing typed in between, gives the collection back as it was,
    writes it to the store and ends the edit. *)
Theorem edit_then_update_unchanged (item : Task) (w : World) :
  NoDup (id <$> tasks (app w)) →
  item ∈ tasks (app w) →
  id item ≠ [] →
  nonblank item →
  let w' := updateTask (editTask (id item) w) in
  tasks (app w') = tasks (app w)
  ∧ storage w' = Some (JSON_stringify (tasks (app w)))
  ∧ task (app w') = []
  ∧ editingTask (app w') = None.
Proof.
  intros Hnd Hitem Hne Htxt. simpl.
  assert (He : editTask (id item) w
               = setEditingTask (Some (id item)) (setTask (text item) w)).
  { unfold editTask.
    destruct (List.find _ _) as [x|] eqn:E.
    - apply find_some in E as [Hx Hid].
      apply list_elem_of_In in Hx. apply bool_decide_eq_true in Hid.
      by rewrite (NoDup_fmap_inj_on id _ x item Hnd Hx Hitem Hid).
    - eapply find_none in E; [|by apply list_elem_of_In].
      by apply bool_decide_eq_false in E. }
  rewrite He. rewrite (updateTask_accept (id item)); [|done..]. simpl.
  assert (Hid : (λ x, if decide (id x = id item)
                      then mkTask (id x) (text item) (completed x)
                      else x) <$> tasks (app w) = tasks (app w)).
  { rewrite <- (list_fmap_id (tasks (app w))) at 2.
    apply list_fmap_ext. intros i x Hx. case_decide as Hx'; [|done].
    apply list_elem_of_lookup_2 in Hx.
    rewrite (NoDup_fmap_inj_on id _ x item Hnd Hx Hitem Hx').
    apply Task_eta. }
  by rewrite Hid.
Qed.

Lemma edit_then_update_unchanged_witness :
  tasks (app (updateTask (editTask (lit "2") two_tasks)))
  = tasks (app two_tasks)
  ∧ editingTask (app (updateTask (editTask (lit "2") two_tasks))) = None.
Proof.
  assert (Hnd : NoDup (id <$> tasks (app two_tasks))).
  { apply NoDup_cons. split; [|apply NoDup_singleton].
    intros Hin%list_elem_of_singleton. discriminate. }
  assert (Hin : mkTask (lit "2") (lit "B") false ∈ tasks (app two_tasks))
    by (apply list_elem_of_further, list_elem_of_here).
  assert (Hne : id (mkTask (lit "2") (lit "B") false) ≠ [])
    by discriminate.
  destruct (edit_then_update_unchanged _ two_tasks Hnd Hin Hne eq_refl)
    as (Ht & _ & _ & He).
  split; [exact Ht|exact He].
Defined.

(** ** The confirm button *)

Lemma active_edit_target_None (w : World) :
  active_edit_target w = None ↔ truthy_opt (editingTask (app w)) = false.
Proof.
  unfold active_edit_target. by destruct (editingTask (app w)) as [[|c t]|].
Qed.

(** X10: a press on the confirm button with a non-blank text always ends
    in add mode with an empty input.  The button commits the edit when a
    target is active and adds a task otherwise; in both cases the text
    input is cleared, the collection is written to the store, no target is
    active afterwards and the label is [+].  The label is the check mark
    exactly while a target is active. *)
Theorem onPress_nonblank (now : Z) (w : World) :
  truthy (trim (task (app w))) = true →
  let w' := onPress now w in
  (is_Some (active_edit_target w) → w' = updateTask w)
  ∧ (active_edit_target w = None → w' = addTask now w)
  ∧ task (app w') = []
  ∧ storage w' = Some (JSON_stringify (tasks (app w')))
  ∧ active_edit_target w' = None
  ∧ button_label w' = [43%N]
  ∧ (button_label w = [10003%N] ↔ is_Some (active_edit_target w)).
Proof.
  intros Htxt. simpl.
  unfold onPress, button_label, active_edit_target.
  destruct (editingTask (app w)) as [[|c t]|] eqn:He; simpl.
  - rewrite (addTask_accept now w Htxt). simpl. rewrite He. simpl.
    repeat split; try done; try (by intros [? ?]).
  - rewrite (updateTask_accept (c :: t) w Htxt He) by done. simpl.
    repeat split; try done; try (by eexists).
  - rewrite (addTask_accept now w Htxt). simpl. rewrite He. simpl.
    repeat split; try done; try (by intros [? ?]).
Qed.

Lemma onPress_nonblank_witness :
  button_label editing_first = [10003%N]
  ∧ onPress 9 editing_first = updateTask editing_first
  ∧ button_label (onPress 9 editing_first) = [43%N]
  ∧ onPress 9 typed_milk = addTask 9 typed_milk.
Proof.
  destruct (onPress_nonblank 9 editing_first eq_refl)
    as (Hu & _ & _ & _ & _ & Hl & _).
  destruct (onPress_nonblank 9 typed_milk eq_refl) as (_ & Ha & _).
  split; [reflexivity|]. split; [apply Hu; by eexists|].
  split; [exact Hl|]. by apply Ha.
Defined.

(** ** Which texts are taken *)

(** X11: [addTask] and [updateTask] turn down exactly the texts made of
    white space.  [addTask] returns the state as it is if and only if
    every code unit of the text input is white space for [trim] (the empty
    text included); on every other text it stores the text as typed,
    blanks at its ends included.  [updateTask] returns the state as it is
    on the same texts. *)
Theorem blank_texts_exactly (now : Z) (w : World) :
  (addTask now w = w ↔ Forall (λ c, is_trim_space c = true) (task (app w)))
  ∧ (¬ Forall (λ c, is_trim_space c = true) (task (app w)) →
     last (tasks (app (addTask now w)))
     = Some (mkTask (Date_now_toString now) (task (app w)) false))
  ∧ (Forall (λ c, is_trim_space c = true) (task (app w)) →
     updateTask w = w).
Proof.
  rewrite <- trim_nil_iff, <- truthy_false.
  destruct (truthy (trim (task (app w)))) eqn:Ht.
  - rewrite (addTask_accept now w Ht). repeat split; try done.
    + intros H. apply (f_equal (λ w, length (tasks (app w)))) in H.
      simpl in H. rewrite length_app in H. simpl in H. lia.
    + intros _. simpl. by rewrite last_snoc.
  - rewrite (addTask_reject now w Ht). repeat split; try done.
    intros _. by apply updateTask_reject.
Qed.

Lemma blank_texts_exactly_witness :
  ¬ Forall (λ c, is_trim_space c = true) (lit " a ")
  ∧ last (tasks (app (addTask 4 (onChangeText (lit " a ") initial_World))))
    = Some (mkTask (lit "4") (lit " a ") false)
  ∧ updateTask typed_blanks = typed_blanks.
Proof.
  assert (Hn : ¬ Forall (λ c, is_trim_space c = true) (lit " a ")).
  { intros H. apply Forall_cons in H as [_ H].
    apply Forall_cons in H as [H _]. discriminate. }
  split; [exact Hn|]. split.
  - exact (proj1 (proj2 (blank_texts_exactly 4
                           (onChangeText (lit " a ") initial_World))) Hn).
  - apply (proj2 (proj2 (blank_texts_exactly 4 typed_blanks))).
    repeat constructor.
Defined.

(** ** Toggles in either order *)

(** X12: toggles commute.  Toggling the tasks of two ids, equal or not,
    leaves the same state whichever press comes first. *)
Theorem toggleCompletion_commute (a b : list N) (w : World) :
  toggleCompletion a (toggleCompletion b w)
  = toggleCompletion b (toggleCompletion a w).
Proof.
  assert (H : tasks (app (toggleCompletion a (toggleCompletion b w)))
              = tasks (app (toggleCompletion b (toggleCompletion a w)))).
  { unfold toggleCompletion. simpl. rewrite <- !list_fmap_compose.
    apply list_fmap_ext. intros _ item _. simpl.
    destruct (decide (id item = a)), (decide (id item = b)); simpl;
      repeat (rewrite decide_True by done);
      repeat (rewrite decide_False by done); done. }
  unfold toggleCompletion in *. simpl in *. by rewrite H.
Qed.

(** ** The ids that adds create *)

Lemma Date_now_toString_nonempty (now : Z) : Date_now_toString now ≠ [].
Proof.
  unfold Date_now_toString. destruct now as [|p|p]; simpl; [done| |done].
  pose proof (DecimalPos.Unsigned.to_uint_nonnil p) as H.
  by destruct (Pos.to_uint p).
Qed.

Lemma find_some_match (taskId : list N) (l : list Task) (item : Task) :
  item ∈ l → id item = taskId →
  ∃ x, List.find (λ x, bool_decide (id x = taskId)) l = Some x.
Proof.
  intros Hin Hid.
  destruct (List.find _ l) as [x|] eqn:E; [by exists x|].
  eapply find_none in E; [|by apply list_elem_of_In].
  by apply bool_decide_eq_false in E.
Qed.

(** X13: every task that the app itself created can be put under edit.
    After every run from the first render no task of the collection has
    the empty string as its id (an id is a clock reading in decimal), so
    the press on edit for any task of the collection makes its id the
    active edit target. *)
Theorem run_ids_editable (es : list event) (item : Task) :
  item ∈ tasks (app (run es initial_World)) →
  id item ≠ []
  ∧ active_edit_target (editTask (id item) (run es initial_World))
    = Some (id item).
Proof.
  intros Hin.
  assert (H : everywhere (Forall (λ t, id t ≠ [])) (run es initial_World)).
  { apply everywhere_run; [|split; constructor].
    intros e w _ [Ht Hc] l Hl.
    destruct Hl as [|now _ _|taskId|taskId _|c Hc'].
    - done.
    - apply Forall_app. split; [done|].
      repeat constructor. apply Date_now_toString_nonempty.
    - apply Forall_fmap. eapply Forall_impl; [done|].
      intros x Hx. simpl. by case_decide.
    - apply Forall_fmap. eapply Forall_impl; [done|].
      intros x Hx. simpl. by case_decide.
    - eapply Forall_forall in Hc; [|done]. by apply Forall_filter_keep. }
  destruct H as [H _]. eapply Forall_forall in H; [|done].
  split; [done|]. apply active_edit_target_Some. split; [|done].
  unfold editTask.
  by destruct (find_some_match (id item) _ item Hin eq_refl) as [x ->].
Qed.

Lemma run_ids_editable_witness :
  mkTask (lit "1") (lit "A") false
  ∈ tasks (app (run overlapping_deletes initial_World))
  ∧ active_edit_target
      (editTask (id (mkTask (lit "1") (lit "A") false))
                (run overlapping_deletes initial_World))
    = Some (id (mkTask (lit "1") (lit "A") false)).
Proof.
  assert (Hin : mkTask (lit "1") (lit "A") false
                ∈ tasks (app (run overlapping_deletes initial_World)))
    by apply list_elem_of_here.
  split; [exact Hin|].
  exact (proj2 (run_ids_editable overlapping_deletes
                  (mkTask (lit "1") (lit "A") false) Hin)).
Defined.

(** ** Two presses on one delete button *)

Lemma fade_end_at (F1 F2 : list fade_closure) (c : fade_closure)
    (a : App) (s : option (list N)) :
  fade_end (length F1) (mkWorld a s (F1 ++ c :: F2))
  = fade_callback c (mkWorld a s (F1 ++ F2)).
Proof.
  unfold fade_end. cbn [fading app storage].
  rewrite list_lookup_middle by done.
  rewrite take_app_length.
  assert (Hd : drop (S (length F1)) (F1 ++ c :: F2) = F2)
    by (induction F1; simpl; auto).
  by rewrite Hd.
Qed.

(** X14: two presses on the delete button of one task, with no other event
    between the two presses and none before both completion callbacks have
    run, do no harm.  Both callbacks captured the same collection: after
    both have run, the state is the one a single delete leaves. *)
Theorem double_delete_harmless (taskId : list N) (w : World) :
  is_Some (animations (app w) !! taskId) →
  fade_end (length (fading w))
    (fade_end (length (fading w))
       (deleteTask taskId (deleteTask taskId w)))
  = deleteTask_and_fade taskId w.
Proof.
  intros Hg. rewrite (deleteTask_and_fade_guarded taskId w Hg).
  destruct Hg as [v Hv]. unfold deleteTask. rewrite Hv.
  cbn [app storage fading]. rewrite Hv, <- app_assoc.
  set (c := mkClosure taskId (tasks (app w))).
  change ([c] ++ [c]) with (c :: [c]). rewrite fade_end_at.
  unfold fade_callback at 1, setAnimations, saveTasks, setTasks.
  cbn [app storage fading task tasks editingTask animations].
  rewrite fade_end_at.
  unfold fade_callback, setAnimations, saveTasks, setTasks.
  cbn [app storage fading task tasks editingTask animations
       closure_taskId closure_tasks c].
  by rewrite delete_delete_eq, app_nil_r.
Qed.

Lemma double_delete_harmless_witness :
  tasks (app (fade_end 0 (fade_end 0
           (deleteTask (lit "1") (deleteTask (lit "1") two_tasks)))))
  = [mkTask (lit "2") (lit "B") false].
Proof.
  assert (Hg : is_Some (animations (app two_tasks) !! lit "1"))
    by (exists 1%Z; by vm_compute).
  pose proof (double_delete_harmless (lit "1") two_tasks Hg) as H.
  apply (f_equal (λ w, tasks (app w))) in H. exact H.
Defined.

(** ** What the store tells apart *)

(** X15: the stored text tells any two collections apart: [saveTasks]
    writes different texts for collections that differ in a task, a field
    or the order. *)
Theorem saveTasks_tells_apart (ts ts' : list Task) (w w' : World) :
  ts ≠ ts' → storage (saveTasks ts w) ≠ storage (saveTasks ts' w').
Proof.
  intros Hne H. apply Hne. unfold saveTasks in H. cbn [storage] in H.
  apply (inj Some) in H.
  destruct (JSON_parse_stringify ts) as [Hp Ha].
  destruct (JSON_parse_stringify ts') as [Hp' Ha'].
  rewrite H, Hp' in Hp. apply (inj Some) in Hp. rewrite Hp in Ha'.
  congruence.
Qed.

Lemma saveTasks_tells_apart_witness :
  storage (saveTasks [mkTask (lit "1") (lit "A") true] initial_World)
  ≠ storage (saveTasks [mkTask (lit "1") (lit "A") false] initial_World).
Proof.
  apply saveTasks_tells_apart. discriminate.
Defined.
